(** * A 1-based binary min-heap on a [std::vector]: [PriorityQueue<T>]

    The class of [priority_queue.h] keeps its entries in one vector
    [heap] whose slot 0 holds a filler entry; entry [n] has its parent at
    [n >> 1] and its children at [n << 1] and [(n << 1) + 1].  This file
    embeds the member functions as programs over that vector, the checker
    [tester<T>::isHeapOrder] of the test driver, and proves the
    properties of the two rebalancing loops. *)

From Stdlib Require Import ZArith List Bool Lia ZifyNat Permutation Sorted.
From Equations Require Import Equations.
From stdpp Require Import base list.
Import ListNotations.

Local Open Scope Z_scope.

(** ** The element type

    The template parameter [T] is used through value initialisation
    ([heap(01)] builds one [T()]) and through [operator<] alone.  The
    comparison is required to be a strict weak order, as the standard
    library demands of every ordering it sorts with. *)

Class Less (T : Type) : Type := {
  T_init : T;
  less : T -> T -> bool;
  less_irrefl : forall a, less a a = false;
  less_trans : forall a b c, less a b = true -> less b c = true -> less a c = true;
  less_incomp : forall a b c, less a b = false -> less b c = false -> less a c = false
}.

(** [int] with the built-in [<]. *)
#[export] Instance Less_int : Less Z := {|
  T_init := 0;
  less := Z.ltb;
  less_irrefl := Z.ltb_irrefl;
  less_trans := fun a b c Hab Hbc =>
    proj2 (Z.ltb_lt a c)
      (Z.lt_trans a b c (proj1 (Z.ltb_lt a b) Hab) (proj1 (Z.ltb_lt b c) Hbc));
  less_incomp := fun a b c Hab Hbc =>
    proj2 (Z.ltb_ge a c)
      (Z.le_trans c b a (proj1 (Z.ltb_ge b c) Hbc) (proj1 (Z.ltb_ge a b) Hab))
|}.

(** A value for the reads beyond the end of a vector of [int]. *)
Definition stale7 : Z -> Z := fun _ => 7.

(** ** [size_t] *)

Definition size_t_bits : Z := 64.
Definition wrap (z : Z) : Z := z mod 2 ^ size_t_bits.

(** [std::vector::max_size()] never exceeds [PTRDIFF_MAX]. *)
Definition PTRDIFF_MAX : Z := 2 ^ 63 - 1.

(** [unsigned int], the type of the checker's loop counter. *)
Definition wrap32 (z : Z) : Z := z mod 2 ^ 32.

(** Writes the bounds out for [lia]. *)
Ltac pow_consts :=
  unfold PTRDIFF_MAX, size_t_bits in *;
  change (2 ^ 64) with 18446744073709551616 in *;
  change (2 ^ 63) with 9223372036854775808 in *;
  change (2 ^ 32) with 4294967296 in *;
  change (2 ^ 1) with 2 in *.

(** ** Programs over the vector

    A run of a member function yields its return value ([None] when a
    loop was cut off by the iteration budget [fuel]), the object after
    the run, and the list of [operator[]] uses in the order they happen,
    each with the length of the vector at that moment.  An access beyond
    the end of the vector is outside the language's guarantees; the model
    lets such a read yield [stale i] for an arbitrary [stale], lets such a
    write leave the vector as it is, and records both. *)

Record access : Type := Access {
  acc_write : bool;
  acc_index : Z;
  acc_size : Z
}.

Definition in_range (a : access) : bool :=
  (0 <=? acc_index a) && (acc_index a <? acc_size a).

(** Keeps the equation of a scrutinee in the context of its branches. *)
Definition inspect {A : Type} (a : A) : {b : A | a = b} := exist _ a eq_refl.

Section PriorityQueue.

Context {T : Type} {LessT : Less T}.

Record PriorityQueue : Type := mkPQ { heap : list T }.

#[local] Set Implicit Arguments.
#[local] Set Maximal Implicit Insertion.
Record run (A : Type) : Type := Run {
  value : option A;
  final : PriorityQueue;
  accesses : list access
}.
#[local] Unset Maximal Implicit Insertion.
#[local] Unset Implicit Arguments.

Definition M (A : Type) : Type := PriorityQueue -> run A.

Definition ret {A} (a : A) : M A := fun pq => Run (Some a) pq [].

Definition bind {A B} (m : M A) (k : A -> M B) : M B := fun pq =>
  let r := m pq in
  match value r with
  | Some a =>
      let r' := k a (final r) in
      Run (value r') (final r') (accesses r ++ accesses r')
  | None => Run None (final r) (accesses r)
  end.

Definition out_of_fuel {A} : M A := fun pq => Run None pq [].

Notation "x <- m ;; k" := (bind m (fun x => k))
  (at level 100, m at next level, right associativity).
Notation "m ;; k" := (bind m (fun _ => k))
  (at level 100, right associativity).

Variable stale : Z -> T.

(** [heap.size()] *)
Definition vec_size : M Z := fun pq =>
  Run (Some (Z.of_nat (length (heap pq)))) pq [].

(** [heap[i]] read *)
Definition vec_get (i : Z) : M T := fun pq =>
  Run (Some (match heap pq !! Z.to_nat i with Some x => x | None => stale i end))
      pq
      [Access false i (Z.of_nat (length (heap pq)))].

(** [heap[i] = v] *)
Definition vec_set (i : Z) (v : T) : M unit := fun pq =>
  Run (Some tt)
      (mkPQ (<[Z.to_nat i := v]> (heap pq)))
      [Access true i (Z.of_nat (length (heap pq)))].

(** [heap.back()], the entry at [heap.size() - 1] *)
Definition vec_back : M T :=
  n <- vec_size ;; vec_get (wrap (n - 1)).

(** [heap.push_back(v)] *)
Definition push_back (v : T) : M unit := fun pq =>
  Run (Some tt) (mkPQ (heap pq ++ [v])) [].

(** [heap.pop_back()] *)
Definition pop_back : M unit := fun pq =>
  Run (Some tt) (mkPQ (removelast (heap pq))) [].

(** ** The member functions

    The two [while] loops take an iteration budget [fuel] and cut the run
    off when it is spent.  A vector holds fewer than [2 ^ 63] entries, so
    either loop ends within 64 iterations: the statements below ask for
    [64 <= fuel] and show that the run is then never cut off. *)

(** [PriorityQueue() : heap(01)] *)
Definition PriorityQueue_new : PriorityQueue := mkPQ [T_init].

(** [return (heap.size() - 01);] *)
Definition size : M Z :=
  n <- vec_size ;; ret (wrap (n - 1)).

(** [return heap[01];] *)
Definition min : M T := vec_get 1.

(** [std::swap(heap[a], heap[b]);] *)
Definition swap (a b : Z) : M unit :=
  x <- vec_get a ;;
  y <- vec_get b ;;
  vec_set a y ;;
  vec_set b x.

(** [return (loc>>01);] *)
Definition parent (loc : Z) : Z := Z.shiftr loc 1.

(** [return (loc<<01);] *)
Definition leftChild (loc : Z) : Z := wrap (Z.shiftl loc 1).

(** [return ((loc<<01) + 01);] *)
Definition rightChild (loc : Z) : Z := wrap (wrap (Z.shiftl loc 1) + 1).

(** [return (leftChild(loc) <= size());] *)
Definition leftInBounds (loc : Z) : M bool :=
  n <- size ;; ret (leftChild loc <=? n).

(** [return (rightChild(loc) <= size());] *)
Definition rightInBounds (loc : Z) : M bool :=
  n <- size ;; ret (rightChild loc <=? n).

Definition minChild (pos : Z) : M Z :=
  lInBounds <- leftInBounds pos ;;
  rInBounds <- (if lInBounds then rightInBounds pos else ret false) ;;
  if lInBounds && rInBounds then
    l <- vec_get (leftChild pos) ;;
    r <- vec_get (rightChild pos) ;;
    ret (if less l r then leftChild pos else rightChild pos)
  else if lInBounds then
    ret (leftChild pos)
  else
    ret pos.

(** [while(heap[(swaper = minChild(i))] < heap[i]) { swap(i, swaper); i = swaper; }] *)
Fixpoint removeMin_loop (fuel : nat) (i : Z) : M unit :=
  match fuel with
  | O => out_of_fuel
  | S fuel' =>
      swaper <- minChild i ;;
      a <- vec_get swaper ;;
      b <- vec_get i ;;
      if less a b then
        swap i swaper ;;
        removeMin_loop fuel' swaper
      else
        ret tt
  end.

Definition removeMin (fuel : nat) : M T :=
  save <- vec_get 1 ;;
  last <- vec_back ;;
  vec_set 1 last ;;
  pop_back ;;
  removeMin_loop fuel 1 ;;
  ret save.

(** [while(entryNo > 01 && val < heap[parent(entryNo)]) { swap(entryNo, parent(entryNo)); entryNo = parent(entryNo); }] *)
Fixpoint insert_loop (fuel : nat) (val : T) (entryNo : Z) : M unit :=
  match fuel with
  | O => out_of_fuel
  | S fuel' =>
      if 1 <? entryNo then
        p <- vec_get (parent entryNo) ;;
        if less val p then
          swap entryNo (parent entryNo) ;;
          insert_loop fuel' val (parent entryNo)
        else
          ret tt
      else
        ret tt
  end.

Definition insert (fuel : nat) (val : T) : M unit :=
  push_back val ;;
  entryNo <- size ;;
  insert_loop fuel val entryNo.

(** ** The checker of the test driver

    [tester<T>::isHeapOrder]: [yes] starts [true]; the counter [i] is an
    [unsigned int] running from 1 while [i <= p->size()]; each check is
    folded in with [yes &= ...], which evaluates its operand always. *)

Fixpoint isHeapOrder_loop (fuel : nat) (i : Z) (yes : bool) : M bool :=
  match fuel with
  | O => out_of_fuel
  | S fuel' =>
      n <- size ;;
      if i <=? n then
        yes1 <- (if 0 <? parent i then
                   a <- vec_get (parent i) ;;
                   b <- vec_get i ;;
                   ret (yes && less a b)
                 else ret yes) ;;
        lb <- leftInBounds i ;;
        yes2 <- (if lb then
                   a <- vec_get i ;;
                   b <- vec_get (leftChild i) ;;
                   ret (yes1 && less a b)
                 else ret yes1) ;;
        rb <- rightInBounds i ;;
        yes3 <- (if rb then
                   a <- vec_get i ;;
                   b <- vec_get (rightChild i) ;;
                   ret (yes2 && less a b)
                 else ret yes2) ;;
        isHeapOrder_loop fuel' (wrap32 (i + 1)) yes3
      else
        ret yes
  end.

Definition isHeapOrder (fuel : nat) : M bool := isHeapOrder_loop fuel 1 true.

(** ** The test driver

    [main] of the driver fills a [PriorityQueue<int>] and a [vector<int>]
    with [0x100] values of [rand()], sorts the vector and drains the
    queue against it.  [rand i] is what the [i]-th call of [rand()]
    returns and [equal] is [==] on the entries.  A failed [assert] ends
    the program: the functions below return [false] (or no vector) then,
    and [true] when every assertion held. *)

(** [sort(v.begin(), v.end())]: the ascending rearrangement of [v]. *)
Fixpoint sort_insert (x : T) (v : list T) : list T :=
  match v with
  | [] => [x]
  | y :: v' => if less y x then y :: sort_insert x v' else x :: v
  end.

Definition std_sort (v : list T) : list T := fold_right sort_insert [] v.

(** [for(unsigned int i = 0; i < 0x100; ++i)
      { t = rand(); v.push_back(t); p.insert(t); assert(isHeapOrder(&p)); }],
    with [n] iterations left. *)
Fixpoint main_fill (fuel : nat) (rand : nat -> T) (i n : nat) (v : list T)
  : M (option (list T)) :=
  match n with
  | O => ret (Some v)
  | S n' =>
      insert fuel (rand i) ;;
      ok <- isHeapOrder fuel ;;
      if ok then main_fill fuel rand (S i) n' (v ++ [rand i])
      else ret None
  end.

(** [for(auto i = v.begin(); i != v.end(); ++i)
      { assert(isHeapOrder(&p)); assert( *i == p.removeMin()); }] *)
Fixpoint main_drain (equal : T -> T -> bool) (fuel : nat) (v : list T)
  : M bool :=
  match v with
  | [] => ret true
  | x :: v' =>
      ok <- isHeapOrder fuel ;;
      if ok then
        y <- removeMin fuel ;;
        if equal x y then main_drain equal fuel v' else ret false
      else ret false
  end.

Definition main (equal : T -> T -> bool) (fuel : nat) (rand : nat -> T)
  : M bool :=
  filled <- main_fill fuel rand 0 256 [] ;;
  match filled with
  | Some v => main_drain equal fuel (std_sort v)
  | None => ret false
  end.

(** ** Sequences of public calls *)

Inductive call : Type :=
| Insert (v : T)
| RemoveMin.

(** Runs the calls in order and collects what the [removeMin] calls
    return. *)
Fixpoint exec (fuel : nat) (cs : list call) : M (list T) :=
  match cs with
  | [] => ret []
  | Insert v :: cs' => insert fuel v ;; exec fuel cs'
  | RemoveMin :: cs' =>
      x <- removeMin fuel ;;
      xs <- exec fuel cs' ;;
      ret (x :: xs)
  end.

(** Every [removeMin] of the sequence meets a queue holding at least one
    entry, when the sequence starts on a queue of [n] entries. *)
Fixpoint nonempty_removals (n : nat) (cs : list call) : bool :=
  match cs with
  | [] => true
  | Insert _ :: cs' => nonempty_removals (S n) cs'
  | RemoveMin :: cs' =>
      match n with
      | O => false
      | S n' => nonempty_removals n' cs'
      end
  end.

(** The number of [insert] calls, of [removeMin] calls, and the values
    inserted, of a sequence. *)
Fixpoint inserts (cs : list call) : nat :=
  match cs with
  | [] => O
  | Insert _ :: cs' => S (inserts cs')
  | RemoveMin :: cs' => inserts cs'
  end.

Fixpoint removals (cs : list call) : nat :=
  match cs with
  | [] => O
  | Insert _ :: cs' => removals cs'
  | RemoveMin :: cs' => S (removals cs')
  end.

Fixpoint inserted (cs : list call) : list T :=
  match cs with
  | [] => []
  | Insert v :: cs' => v :: inserted cs'
  | RemoveMin :: cs' => inserted cs'
  end.

(** ** The state and its properties *)

(** The entries the queue holds: slots 1 to [size()]. *)
Definition live (pq : PriorityQueue) : list T := tail (heap pq).

(** A queue as the constructor and the public calls leave it: the filler
    slot is there and the vector is no longer than a vector can be. *)
Definition well_formed (pq : PriorityQueue) : Prop :=
  1 <= Z.of_nat (length (heap pq)) <= PTRDIFF_MAX.

(** Heap order: no entry is strictly less than the entry at its parent
    position. *)
Definition heap_order (l : list T) : Prop :=
  forall (i : nat) (x p : T),
    (2 <= i)%nat ->
    l !! i = Some x -> l !! (i / 2)%nat = Some p ->
    less x p = false.

(** The strict relation read by the checker at position [i]. *)
Definition strict_at (l : list T) (i : nat) : Prop :=
  (forall x p, (1 <= i / 2)%nat -> l !! i = Some x -> l !! (i / 2)%nat = Some p ->
     less p x = true) /\
  (forall x c, l !! i = Some x -> l !! (2 * i)%nat = Some c -> less x c = true) /\
  (forall x c, l !! i = Some x -> l !! (2 * i + 1)%nat = Some c -> less x c = true).

(** [a] is not greater than [b]. *)
Definition leq (a b : T) : Prop := less b a = false.

(** No two entries at different positions compare equivalent. *)
Definition pairwise_distinct (l : list T) : Prop :=
  forall (i j : nat) (x y : T),
    i <> j -> l !! i = Some x -> l !! j = Some y ->
    less x y = true \/ less y x = true.

(** ** The algorithms as the specification words them

    Positions are those of the 1-based layout: the root is at 1, the
    parent of [pos] at [pos / 2], its children at [2 * pos] and
    [2 * pos + 1]; a position is in bounds when the array has it. *)

Definition swap_at (i j : nat) (l : list T) : list T :=
  match l !! i, l !! j with
  | Some a, Some b => <[j := a]> (<[i := b]> l)
  | _, _ => l
  end.

(** Sift-up: while the entry is not at the root and is strictly less than
    its parent, swap the two and go on from the parent's position. *)
Equations? spec_siftUp (l : list T) (pos : nat) : list T by wf pos lt :=
spec_siftUp l pos with le_lt_dec pos 1 := {
  | left _ := l
  | right _ :=
      match l !! pos, l !! (pos / 2)%nat with
      | Some x, Some p =>
          if less x p then spec_siftUp (swap_at pos (pos / 2) l) (pos / 2)%nat
          else l
      | _, _ => l
      end }.
Proof. exact (Nat.div_lt pos 2 ltac:(lia) ltac:(lia)). Qed.

(** Insert: append at the end of the array, then sift up from there. *)
Definition spec_insert (v : T) (l : list T) : list T :=
  spec_siftUp (l ++ [v]) (length l).

(** The minimum child of [pos]: of two children in bounds the one with
    the smaller entry (the right one when neither is smaller), the left
    child when it alone is in bounds, [pos] itself when none is. *)
Definition spec_minChild (l : list T) (pos : nat) : nat :=
  match l !! (2 * pos)%nat, l !! (2 * pos + 1)%nat with
  | Some a, Some b => if less a b then (2 * pos)%nat else (2 * pos + 1)%nat
  | Some _, None => (2 * pos)%nat
  | None, _ => pos
  end.

(** Sift-down: while the entry at the minimum child is strictly less than
    the entry at the current position, swap the two and go on from the
    minimum child. *)
Equations? spec_siftDown (l : list T) (pos : nat) : list T
  by wf (length l - pos)%nat lt :=
spec_siftDown l pos with inspect (l !! spec_minChild l pos, l !! pos) := {
  | exist _ (Some a, Some b) _ with inspect (less a b) := {
      | exist _ true _ :=
          spec_siftDown (swap_at pos (spec_minChild l pos) l) (spec_minChild l pos)
      | exist _ false _ := l }
  | exist _ _ _ := l }.
Proof.
  clear stale.
  match goal with
  | e : (_, _) = (Some a, Some b) |- _ => injection e as Hm Hpos
  end.
  assert (Hlen : length (swap_at pos (spec_minChild l pos) l) = length l).
  { unfold swap_at. rewrite Hm, Hpos, !length_insert. reflexivity. }
  assert (Hlt : (spec_minChild l pos < length l)%nat)
    by (eapply lookup_lt_Some; eassumption).
  assert (Hne : spec_minChild l pos <> pos).
  { intros Heq. rewrite Heq, Hpos in Hm. injection Hm as ->.
    match goal with
    | e : less _ _ = true |- _ => rewrite less_irrefl in e; discriminate
    end. }
  assert (Hge : (pos <= spec_minChild l pos)%nat).
  { unfold spec_minChild.
    repeat match goal with
           | |- context [match ?o with _ => _ end] => destruct o
           end; lia. }
  lia.
Qed.

(** removeMin: save the root, move the last entry to the root, drop the
    last slot, sift down from the root, return what was saved. *)
Definition spec_removeMin (l : list T) : option (T * list T) :=
  match l !! 1%nat, l !! (length l - 1)%nat with
  | Some root, Some x =>
      Some (root, spec_siftDown (take (length l - 1) (<[1%nat := x]> l)) 1)
  | _, _ => None
  end.

(** Heap order but for the entry at [k], which may be less than its
    parent; the children of [k] are in order with the parent of [k]. *)
Definition up_inv (l : list T) (k : nat) : Prop :=
  (forall (i : nat) (x p : T),
     (2 <= i)%nat -> i <> k ->
     l !! i = Some x -> l !! (i / 2)%nat = Some p -> less x p = false) /\
  (forall (c : nat) (x g : T),
     (2 <= k)%nat -> (c / 2)%nat = k ->
     l !! c = Some x -> l !! (k / 2)%nat = Some g -> less x g = false).

(** Heap order but for the children of [k], which may be less than the
    entry at [k]; they are in order with the parent of [k]. *)
Definition down_inv (l : list T) (k : nat) : Prop :=
  (forall (i : nat) (x p : T),
     (2 <= i)%nat -> (i / 2)%nat <> k ->
     l !! i = Some x -> l !! (i / 2)%nat = Some p -> less x p = false) /\
  (forall (c : nat) (x g : T),
     (2 <= k)%nat -> (c / 2)%nat = k ->
     l !! c = Some x -> l !! (k / 2)%nat = Some g -> less x g = false).

(** Every [operator[]] use of the run of [m] from [pq] is within the
    vector. *)
Definition in_bounds_run {A : Type} (m : M A) (pq : PriorityQueue) : Prop :=
  Forall (fun a => in_range a = true) (accesses (m pq)).

(** The run of [m] from [pq] returns [a] and leaves [pq']. *)
Definition returns {A : Type} (m : M A) (pq : PriorityQueue) (a : A)
    (pq' : PriorityQueue) : Prop :=
  value (m pq) = Some a /\ final (m pq) = pq'.

(** ** Unfolding the two sifts by one step *)

Lemma spec_siftUp_step (l : list T) (pos : nat) :
  spec_siftUp l pos =
  if (1 <? pos)%nat then
    match l !! pos, l !! (pos / 2)%nat with
    | Some x, Some p =>
        if less x p then spec_siftUp (swap_at pos (pos / 2) l) (pos / 2)%nat else l
    | _, _ => l
    end
  else l.
Proof.
  rewrite spec_siftUp_equation_1.
  destruct (le_lt_dec pos 1) as [Hle | Hgt];
    destruct (Nat.ltb_spec 1 pos); try lia; reflexivity.
Qed.

Lemma spec_siftDown_inner (l : list T) (pos : nat) (a b : T)
    (r : {c : bool | less a b = c})
    (e : (l !! spec_minChild l pos, l !! pos) = (Some a, Some b)) :
  spec_siftDown_unfold_clause_1_clause_1 l pos a b r e =
  if proj1_sig r then
    spec_siftDown (swap_at pos (spec_minChild l pos) l) (spec_minChild l pos)
  else l.
Proof. destruct r as [[|] e0]; reflexivity. Qed.

Lemma spec_siftDown_outer (l : list T) (pos : nat)
    (r : {o : option T * option T | (l !! spec_minChild l pos, l !! pos) = o}) :
  spec_siftDown_unfold_clause_1 l pos r =
  match proj1_sig r with
  | (Some a, Some b) =>
      if less a b then
        spec_siftDown (swap_at pos (spec_minChild l pos) l) (spec_minChild l pos)
      else l
  | _ => l
  end.
Proof.
  destruct r as [[[a|] [b|]] e]; try reflexivity.
  exact (spec_siftDown_inner l pos a b (inspect (less a b)) e).
Qed.

Lemma spec_siftDown_step (l : list T) (pos : nat) :
  spec_siftDown l pos =
  match l !! spec_minChild l pos, l !! pos with
  | Some a, Some b =>
      if less a b then
        spec_siftDown (swap_at pos (spec_minChild l pos) l) (spec_minChild l pos)
      else l
  | _, _ => l
  end.
Proof.
  rewrite spec_siftDown_equation_1, spec_siftDown_outer. cbn.
  destruct (l !! spec_minChild l pos), (l !! pos); reflexivity.
Qed.

(** ** Lists as arrays *)

Lemma swap_at_length (i j : nat) (l : list T) :
  length (swap_at i j l) = length l.
Proof.
  unfold swap_at. destruct (l !! i), (l !! j); rewrite ?length_insert; reflexivity.
Qed.

Lemma swap_at_lookup (i j k : nat) (l : list T) (a b : T) :
  l !! i = Some a -> l !! j = Some b ->
  swap_at i j l !! k =
  if decide (k = j) then Some a else if decide (k = i) then Some b else l !! k.
Proof.
  intros Hi Hj. unfold swap_at. rewrite Hi, Hj.
  pose proof (lookup_lt_Some _ _ _ Hi) as Hli.
  pose proof (lookup_lt_Some _ _ _ Hj) as Hlj.
  destruct (decide (k = j)) as [-> | Hkj].
  - rewrite list_lookup_insert_eq; [reflexivity | rewrite length_insert; exact Hlj].
  - rewrite list_lookup_insert_ne by congruence.
    destruct (decide (k = i)) as [-> | Hki].
    + rewrite list_lookup_insert_eq; [reflexivity | exact Hli].
    + rewrite list_lookup_insert_ne by congruence. reflexivity.
Qed.

Lemma insert_head_perm (l : list T) (j : nat) (b h : T) :
  l !! j = Some b -> Permutation (b :: <[j := h]> l) (h :: l).
Proof.
  revert j. induction l as [| c l IH]; intros [| j] Hj; try discriminate.
  - cbn in Hj. inversion Hj; subst. cbn. apply perm_swap.
  - cbn in Hj. cbn.
    eapply perm_trans; [apply perm_swap |].
    eapply perm_trans; [apply perm_skip, (IH j Hj) |].
    apply perm_swap.
Qed.

Lemma swap_at_perm (i j : nat) (l : list T) :
  Permutation (swap_at i j l) l.
Proof.
  unfold swap_at.
  destruct (l !! i) as [a |] eqn:Hi; [| reflexivity].
  destruct (l !! j) as [b |] eqn:Hj; [| reflexivity].
  revert i j Hi Hj. induction l as [| h l IH]; intros i j Hi Hj.
  - discriminate.
  - destruct i as [| i], j as [| j]; cbn in *.
    + inversion Hi; inversion Hj; subst. reflexivity.
    + inversion Hi; subst. apply insert_head_perm. exact Hj.
    + inversion Hj; subst. apply insert_head_perm. exact Hi.
    + apply perm_skip. apply IH; assumption.
Qed.

Lemma swap_at_head (i j : nat) (l : list T) :
  (1 <= i)%nat -> (1 <= j)%nat -> swap_at i j l !! 0%nat = l !! 0%nat.
Proof.
  intros Hi Hj. unfold swap_at.
  destruct (l !! i), (l !! j); try reflexivity.
  rewrite !list_lookup_insert_ne by lia. reflexivity.
Qed.

(** ** The order on entries *)

Lemma less_asym (a b : T) : less a b = true -> less b a = false.
Proof.
  intros Hab. destruct (less b a) eqn:Hba; [| reflexivity].
  rewrite <- (less_irrefl a). symmetry. eapply less_trans; eassumption.
Qed.

Lemma less_incomp_l (a b c : T) :
  less a b = false -> less c b = true -> less a c = false.
Proof.
  intros Hab Hcb. destruct (less a c) eqn:Hac; [| reflexivity].
  rewrite <- Hab. symmetry. eapply less_trans; eassumption.
Qed.

(** ** Sift-up restores heap order *)

Lemma up_inv_done (l : list T) (k : nat) :
  up_inv l k ->
  (forall x p, l !! k = Some x -> l !! (k / 2)%nat = Some p ->
     (2 <= k)%nat -> less x p = false) ->
  heap_order l.
Proof.
  intros [Hord _] Hk i x p Hi Hx Hp.
  destruct (decide (i = k)) as [-> | Hne].
  - eapply Hk; eassumption.
  - eapply Hord; eassumption.
Qed.

Lemma up_inv_swap (l : list T) (k : nat) (x p : T) :
  (2 <= k)%nat ->
  l !! k = Some x -> l !! (k / 2)%nat = Some p -> less x p = true ->
  up_inv l k -> up_inv (swap_at k (k / 2) l) (k / 2).
Proof.
  intros Hk Hx Hp Hlt [Hord Hgrand].
  split.
  - intros i xi pi Hi Hne.
    rewrite !(swap_at_lookup _ _ _ _ _ _ Hx Hp).
    repeat case_decide; intros Hxi Hpi; subst; try lia.
    all: repeat match goal with H : Some _ = Some _ |- _ => injection H as <- end.
    + apply less_asym. exact Hlt.
    + eapply less_incomp_l; [| exact Hlt].
      eapply (Hord i); try eassumption. congruence.
    + eapply (Hgrand i); try eassumption; reflexivity.
    + eapply (Hord i); eassumption.
  - intros c xc g Hk2 Hc.
    rewrite !(swap_at_lookup _ _ _ _ _ _ Hx Hp).
    repeat case_decide; intros Hxc Hg; subst; try lia.
    all: repeat match goal with H : Some _ = Some _ |- _ => injection H as <- end.
    + eapply (Hord (k / 2)%nat); try eassumption; lia.
    + eapply less_incomp.
      * eapply (Hord c); try eassumption; [lia | rewrite Hc; exact Hp].
      * eapply (Hord (k / 2)%nat); try eassumption; lia.
Qed.

Lemma spec_siftUp_order (k : nat) :
  forall l : list T, up_inv l k -> heap_order (spec_siftUp l k).
Proof.
  induction k as [k IH] using lt_wf_ind. intros l Hinv.
  rewrite spec_siftUp_step.
  destruct (Nat.ltb_spec 1 k) as [Hk | Hk].
  - destruct (l !! k) as [x |] eqn:Hx.
    + destruct (l !! (k / 2)%nat) as [p |] eqn:Hp.
      * destruct (less x p) eqn:Hlt.
        -- apply IH; [lia |]. eapply up_inv_swap; eauto.
        -- apply (up_inv_done l k Hinv). congruence.
      * apply (up_inv_done l k Hinv). congruence.
    + apply (up_inv_done l k Hinv). congruence.
  - apply (up_inv_done l k Hinv). intros; lia.
Qed.

Lemma spec_siftUp_perm (k : nat) :
  forall l : list T, Permutation (spec_siftUp l k) l.
Proof.
  induction k as [k IH] using lt_wf_ind. intros l.
  rewrite spec_siftUp_step.
  destruct (Nat.ltb_spec 1 k) as [Hk | Hk]; [| reflexivity].
  destruct (l !! k) as [x |]; [| reflexivity].
  destruct (l !! (k / 2)%nat) as [p |]; [| reflexivity].
  destruct (less x p); [| reflexivity].
  rewrite IH by lia. apply swap_at_perm.
Qed.

Lemma spec_siftUp_head (k : nat) :
  forall l : list T, spec_siftUp l k !! 0%nat = l !! 0%nat.
Proof.
  induction k as [k IH] using lt_wf_ind. intros l.
  rewrite spec_siftUp_step.
  destruct (Nat.ltb_spec 1 k) as [Hk | Hk]; [| reflexivity].
  destruct (l !! k) as [x |]; [| reflexivity].
  destruct (l !! (k / 2)%nat) as [p |]; [| reflexivity].
  destruct (less x p); [| reflexivity].
  rewrite IH by lia. apply swap_at_head; lia.
Qed.

Lemma spec_siftUp_length (k : nat) :
  forall l : list T, length (spec_siftUp l k) = length l.
Proof.
  intros l. apply Permutation_length, spec_siftUp_perm.
Qed.

(** Appending an entry to an ordered array leaves it ordered but for the
    new entry. *)
Lemma heap_order_snoc (l : list T) (v : T) :
  heap_order l -> up_inv (l ++ [v]) (length l).
Proof.
  intros Hord. split.
  - intros i x p Hi Hne Hx Hp.
    assert (Hlt : (i < length l)%nat).
    { apply lookup_lt_Some in Hx. rewrite length_app in Hx. cbn in Hx. lia. }
    rewrite lookup_app_l in Hx by lia.
    rewrite lookup_app_l in Hp by lia.
    eapply Hord; eassumption.
  - intros c x g Hk Hc Hx Hg.
    apply lookup_lt_Some in Hx. rewrite length_app in Hx. cbn in Hx. lia.
Qed.

Lemma spec_insert_order (v : T) (l : list T) :
  heap_order l -> heap_order (spec_insert v l).
Proof.
  intros Hord. apply spec_siftUp_order, heap_order_snoc, Hord.
Qed.

Lemma spec_insert_perm (v : T) (l : list T) :
  Permutation (spec_insert v l) (l ++ [v]).
Proof. apply spec_siftUp_perm. Qed.

Lemma spec_insert_head (v : T) (l : list T) :
  (1 <= length l)%nat -> spec_insert v l !! 0%nat = l !! 0%nat.
Proof.
  intros Hl. unfold spec_insert. rewrite spec_siftUp_head.
  apply lookup_app_l. lia.
Qed.

Lemma spec_insert_length (v : T) (l : list T) :
  length (spec_insert v l) = S (length l).
Proof.
  unfold spec_insert. rewrite spec_siftUp_length, length_app. cbn. lia.
Qed.

(** ** Sift-down restores heap order *)

Lemma spec_minChild_range (l : list T) (k : nat) :
  spec_minChild l k = k \/ spec_minChild l k = (2 * k)%nat \/
  spec_minChild l k = (2 * k + 1)%nat.
Proof.
  unfold spec_minChild.
  repeat match goal with
         | |- context [match ?o with _ => _ end] => destruct o
         end; auto.
Qed.

Lemma spec_minChild_in_bounds (l : list T) (k : nat) :
  spec_minChild l k <> k -> is_Some (l !! spec_minChild l k).
Proof.
  unfold spec_minChild.
  destruct (l !! (2 * k)%nat) as [a |] eqn:HL; [| congruence].
  destruct (l !! (2 * k + 1)%nat) as [b |] eqn:HR.
  - destruct (less a b); intros _; [rewrite HL | rewrite HR]; eauto.
  - intros _. rewrite HL. eauto.
Qed.

(** No child of [k] is less than the entry at the minimum child. *)
Lemma spec_minChild_least (l : list T) (k : nat) (a : T) :
  (1 <= k)%nat ->
  l !! spec_minChild l k = Some a ->
  forall (i : nat) (x : T), (i / 2)%nat = k -> l !! i = Some x -> less x a = false.
Proof.
  intros Hk Hm i x Hi Hx.
  assert (Hcases : i = (2 * k)%nat \/ i = (2 * k + 1)%nat) by lia.
  unfold spec_minChild in Hm.
  destruct (l !! (2 * k)%nat) as [aL |] eqn:HL.
  - destruct (l !! (2 * k + 1)%nat) as [aR |] eqn:HR.
    + destruct (less aL aR) eqn:Hlt; destruct Hcases; subst i.
      * rewrite HL in Hm, Hx. simplify_eq. apply less_irrefl.
      * rewrite HL in Hm. rewrite HR in Hx. simplify_eq.
        apply less_asym. exact Hlt.
      * rewrite HR in Hm. rewrite HL in Hx. simplify_eq. exact Hlt.
      * rewrite HR in Hm, Hx. simplify_eq. apply less_irrefl.
    + destruct Hcases; subst i.
      * rewrite HL in Hm, Hx. simplify_eq. apply less_irrefl.
      * congruence.
  - apply lookup_ge_None in HL. apply lookup_lt_Some in Hx. lia.
Qed.

Lemma down_inv_done (l : list T) (k : nat) :
  down_inv l k ->
  (forall i x p, (i / 2)%nat = k -> (2 <= i)%nat ->
     l !! i = Some x -> l !! k = Some p -> less x p = false) ->
  heap_order l.
Proof.
  intros [Hord _] Hk i x p Hi Hx Hp.
  destruct (decide ((i / 2)%nat = k)) as [Heq | Hne].
  - eapply Hk; try eassumption. rewrite <- Heq. exact Hp.
  - eapply Hord; eassumption.
Qed.

Lemma down_inv_swap (l : list T) (k : nat) (a b : T) :
  (1 <= k)%nat ->
  l !! spec_minChild l k = Some a -> l !! k = Some b -> less a b = true ->
  down_inv l k ->
  down_inv (swap_at k (spec_minChild l k) l) (spec_minChild l k).
Proof.
  intros Hk Ha Hb Hlt [Hord Hgrand].
  pose proof (spec_minChild_least l k a Hk Ha) as Hleast.
  assert (Hne : spec_minChild l k <> k).
  { intros Heq. rewrite Heq in Ha. rewrite Ha in Hb. simplify_eq.
    rewrite less_irrefl in Hlt. discriminate. }
  pose proof (spec_minChild_range l k) as Hrange.
  set (m := spec_minChild l k) in *. clearbody m.
  assert (Hmk : (m / 2)%nat = k) by lia.
  split.
  - intros i xi pi Hi Hnm.
    rewrite !(swap_at_lookup _ _ _ _ _ _ Hb Ha).
    repeat case_decide; intros Hxi Hpi; subst; try lia.
    all: repeat match goal with H : Some _ = Some _ |- _ => injection H as <- end.
    + apply less_asym. exact Hlt.
    + eapply (Hgrand m); try eassumption; reflexivity.
    + eapply (Hleast i); eassumption.
    + eapply (Hord i); eassumption.
  - intros c xc g Hm2 Hc.
    rewrite !(swap_at_lookup _ _ _ _ _ _ Hb Ha).
    repeat case_decide; intros Hxc Hg; subst; try lia.
    all: repeat match goal with H : Some _ = Some _ |- _ => injection H as <- end.
    eapply (Hord c); try eassumption; lia.
Qed.

Lemma spec_siftDown_order (n : nat) :
  forall (l : list T) (k : nat),
    (length l - k)%nat = n -> (1 <= k)%nat ->
    down_inv l k -> heap_order (spec_siftDown l k).
Proof.
  induction n as [n IH] using lt_wf_ind. intros l k Hn Hk Hinv.
  rewrite spec_siftDown_step.
  destruct (l !! spec_minChild l k) as [a |] eqn:Ha.
  - destruct (l !! k) as [b |] eqn:Hb.
    + destruct (less a b) eqn:Hlt.
      * assert (Hne : spec_minChild l k <> k).
        { intros Heq. rewrite Heq in Ha. rewrite Ha in Hb. simplify_eq.
          rewrite less_irrefl in Hlt. discriminate. }
        pose proof (spec_minChild_range l k) as Hrange.
        pose proof (lookup_lt_Some _ _ _ Ha) as Hlen.
        eapply IH; [| reflexivity | lia | eapply down_inv_swap; eassumption].
        rewrite swap_at_length. lia.
      * apply (down_inv_done l k Hinv).
        intros i x p Hi Hi2 Hx Hp. rewrite Hb in Hp. simplify_eq.
        eapply less_incomp; [| exact Hlt].
        eapply spec_minChild_least; try eassumption; reflexivity.
    + apply (down_inv_done l k Hinv). congruence.
  - apply (down_inv_done l k Hinv).
    intros i x p Hi Hi2 Hx Hp.
    pose proof (spec_minChild_range l k) as Hrange.
    unfold spec_minChild in Ha, Hrange.
    destruct (l !! (2 * k)%nat) as [aL |] eqn:HL.
    + destruct (l !! (2 * k + 1)%nat) as [aR |] eqn:HR.
      * destruct (less aL aR); congruence.
      * congruence.
    + apply lookup_ge_None in HL. apply lookup_lt_Some in Hx. lia.
Qed.

Lemma spec_siftDown_perm (n : nat) :
  forall (l : list T) (k : nat),
    (length l - k)%nat = n -> Permutation (spec_siftDown l k) l.
Proof.
  induction n as [n IH] using lt_wf_ind. intros l k Hn.
  rewrite spec_siftDown_step.
  destruct (l !! spec_minChild l k) as [a |] eqn:Ha; [| reflexivity].
  destruct (l !! k) as [b |] eqn:Hb; [| reflexivity].
  destruct (less a b) eqn:Hlt; [| reflexivity].
  assert (Hne : spec_minChild l k <> k).
  { intros Heq. rewrite Heq in Ha. rewrite Ha in Hb. simplify_eq.
    rewrite less_irrefl in Hlt. discriminate. }
  pose proof (spec_minChild_range l k) as Hrange.
  pose proof (lookup_lt_Some _ _ _ Ha) as Hlen.
  rewrite (IH (length l - spec_minChild l k)%nat); [apply swap_at_perm | lia |].
  rewrite swap_at_length. reflexivity.
Qed.

Lemma spec_siftDown_head (n : nat) :
  forall (l : list T) (k : nat),
    (length l - k)%nat = n -> (1 <= k)%nat ->
    spec_siftDown l k !! 0%nat = l !! 0%nat.
Proof.
  induction n as [n IH] using lt_wf_ind. intros l k Hn Hk.
  rewrite spec_siftDown_step.
  destruct (l !! spec_minChild l k) as [a |] eqn:Ha; [| reflexivity].
  destruct (l !! k) as [b |] eqn:Hb; [| reflexivity].
  destruct (less a b) eqn:Hlt; [| reflexivity].
  assert (Hne : spec_minChild l k <> k).
  { intros Heq. rewrite Heq in Ha. rewrite Ha in Hb. simplify_eq.
    rewrite less_irrefl in Hlt. discriminate. }
  pose proof (spec_minChild_range l k) as Hrange.
  pose proof (lookup_lt_Some _ _ _ Ha) as Hlen.
  rewrite (IH (length l - spec_minChild l k)%nat);
    [apply swap_at_head; lia | lia | | lia].
  rewrite swap_at_length. reflexivity.
Qed.

Lemma spec_siftDown_length (l : list T) (k : nat) :
  length (spec_siftDown l k) = length l.
Proof. apply Permutation_length. eapply spec_siftDown_perm. reflexivity. Qed.

Lemma heap_order_root_min (l : list T) (r : T) :
  heap_order l -> l !! 1%nat = Some r ->
  forall (i : nat) (x : T), (1 <= i)%nat -> l !! i = Some x -> less x r = false.
Proof.
  intros Hord Hr i. induction i as [i IH] using lt_wf_ind. intros x Hi Hx.
  destruct (decide (i = 1%nat)) as [-> | Hne].
  - rewrite Hr in Hx. simplify_eq. apply less_irrefl.
  - assert (Hp : is_Some (l !! (i / 2)%nat)).
    { apply lookup_lt_is_Some. apply lookup_lt_Some in Hx. lia. }
    destruct Hp as [p Hp].
    eapply less_incomp.
    + eapply (Hord i); [lia | eassumption | eassumption].
    + eapply (IH (i / 2)%nat); [lia | lia | exact Hp].
Qed.

(** ** removeMin on the array *)

Lemma pop_root_perm (l : list T) (root x : T) :
  l !! 1%nat = Some root -> l !! (length l - 1)%nat = Some x ->
  Permutation (tail l) (root :: tail (take (length l - 1) (<[1%nat := x]> l))).
Proof.
  destruct l as [| s [| r rest]]; try discriminate.
  intros Hr Hx. cbn in Hr. simplify_eq.
  destruct (decide (rest = [])) as [-> | Hne].
  - cbn in Hx. simplify_eq. cbn. reflexivity.
  - destruct (exists_last Hne) as [rest' [y ->]].
    assert (Hlen : (length (s :: root :: rest' ++ [y]) - 1)%nat
                   = S (S (length rest'))).
    { cbn [length]. rewrite length_app. cbn [length]. lia. }
    rewrite Hlen in *.
    change ((rest' ++ [y]) !! length rest' = Some x) in Hx.
    rewrite lookup_app_r, Nat.sub_diag in Hx by lia.
    cbn in Hx. simplify_eq.
    cbn. rewrite take_app_length.
    apply perm_skip. symmetry. apply Permutation_cons_append.
Qed.

Lemma pop_root_down_inv (l : list T) (x : T) :
  heap_order l -> down_inv (take (length l - 1) (<[1%nat := x]> l)) 1.
Proof.
  intros Hord. split.
  - intros i xi pi Hi Hne Hxi Hpi.
    apply lookup_take_Some in Hxi as [Hxi Hlt].
    apply lookup_take_Some in Hpi as [Hpi _].
    rewrite list_lookup_insert_ne in Hxi by lia.
    rewrite list_lookup_insert_ne in Hpi by lia.
    eapply Hord; eassumption.
  - intros; lia.
Qed.

Lemma spec_removeMin_some (l : list T) :
  (2 <= length l)%nat ->
  exists root x,
    l !! 1%nat = Some root /\ l !! (length l - 1)%nat = Some x /\
    spec_removeMin l =
    Some (root, spec_siftDown (take (length l - 1) (<[1%nat := x]> l)) 1).
Proof.
  intros Hlen.
  destruct (lookup_lt_is_Some_2 l 1%nat ltac:(lia)) as [root Hr].
  destruct (lookup_lt_is_Some_2 l (length l - 1)%nat ltac:(lia)) as [x Hx].
  exists root, x. unfold spec_removeMin. rewrite Hr, Hx. auto.
Qed.

Lemma spec_removeMin_order (l l' : list T) (r : T) :
  heap_order l -> spec_removeMin l = Some (r, l') -> heap_order l'.
Proof.
  unfold spec_removeMin. intros Hord Hrm.
  destruct (l !! 1%nat) as [root |] eqn:Hr; [| discriminate].
  destruct (l !! (length l - 1)%nat) as [x |] eqn:Hx; [| discriminate].
  simplify_eq.
  eapply spec_siftDown_order; [reflexivity | lia | apply pop_root_down_inv, Hord].
Qed.

Lemma spec_removeMin_length (l l' : list T) (r : T) :
  spec_removeMin l = Some (r, l') -> length l = S (length l') /\ (1 <= length l')%nat.
Proof.
  unfold spec_removeMin. intros Hrm.
  destruct (l !! 1%nat) as [root |] eqn:Hr; [| discriminate].
  destruct (l !! (length l - 1)%nat) as [x |] eqn:Hx; [| discriminate].
  simplify_eq. apply lookup_lt_Some in Hr.
  rewrite spec_siftDown_length, length_take, length_insert. lia.
Qed.

Lemma spec_removeMin_head (l l' : list T) (r : T) :
  spec_removeMin l = Some (r, l') -> l' !! 0%nat = l !! 0%nat.
Proof.
  unfold spec_removeMin. intros Hrm.
  destruct (l !! 1%nat) as [root |] eqn:Hr; [| discriminate].
  destruct (l !! (length l - 1)%nat) as [x |] eqn:Hx; [| discriminate].
  simplify_eq. apply lookup_lt_Some in Hr.
  erewrite spec_siftDown_head; [| reflexivity | lia].
  rewrite lookup_take_lt by lia.
  apply list_lookup_insert_ne. lia.
Qed.

Lemma perm_same_head_tail (l1 l2 : list T) :
  Permutation l1 l2 -> l1 !! 0%nat = l2 !! 0%nat -> Permutation (tail l1) (tail l2).
Proof.
  intros Hperm Hhead.
  destruct l1 as [| a l1], l2 as [| b l2]; cbn in *; try discriminate.
  - reflexivity.
  - simplify_eq. eapply Permutation_cons_inv. exact Hperm.
Qed.

Lemma spec_removeMin_perm (l l' : list T) (r : T) :
  spec_removeMin l = Some (r, l') -> Permutation (tail l) (r :: tail l').
Proof.
  unfold spec_removeMin. intros Hrm.
  destruct (l !! 1%nat) as [root |] eqn:Hr; [| discriminate].
  destruct (l !! (length l - 1)%nat) as [x |] eqn:Hx; [| discriminate].
  simplify_eq.
  rewrite (pop_root_perm l r x Hr Hx). apply perm_skip.
  apply perm_same_head_tail.
  - symmetry. eapply spec_siftDown_perm. reflexivity.
  - symmetry. apply lookup_lt_Some in Hr.
    eapply spec_siftDown_head; [reflexivity | lia].
Qed.

Lemma spec_removeMin_min (l l' : list T) (r : T) :
  heap_order l -> spec_removeMin l = Some (r, l') ->
  l !! 1%nat = Some r /\ Forall (fun x => less x r = false) (tail l).
Proof.
  unfold spec_removeMin. intros Hord Hrm.
  destruct (l !! 1%nat) as [root |] eqn:Hr; [| discriminate].
  destruct (l !! (length l - 1)%nat) as [x |] eqn:Hx; [| discriminate].
  simplify_eq. split; [reflexivity |].
  apply Forall_lookup_2. intros i y Hy.
  eapply (heap_order_root_min l r Hord Hr (S i)); [lia |].
  destruct l; [discriminate | exact Hy].
Qed.

(** ** Index arithmetic below the wrap-around *)

Lemma wrap_small (z : Z) : 0 <= z < 2 ^ 64 -> wrap z = z.
Proof. intros Hz. unfold wrap, size_t_bits. apply Z.mod_small. exact Hz. Qed.

Lemma parent_div (loc : Z) : parent loc = loc / 2.
Proof. clear stale LessT T. unfold parent. rewrite Z.shiftr_div_pow2 by lia. reflexivity. Qed.

Lemma leftChild_small (loc : Z) :
  0 <= loc <= PTRDIFF_MAX -> leftChild loc = 2 * loc.
Proof.
  clear stale LessT T.
  unfold leftChild. intros Hloc.
  rewrite Z.shiftl_mul_pow2 by lia. rewrite wrap_small; pow_consts; lia.
Qed.

Lemma rightChild_small (loc : Z) :
  0 <= loc <= PTRDIFF_MAX -> rightChild loc = 2 * loc + 1.
Proof.
  clear stale LessT T.
  unfold rightChild. intros Hloc.
  rewrite Z.shiftl_mul_pow2 by lia.
  rewrite (wrap_small (loc * 2 ^ 1)) by (pow_consts; lia).
  rewrite wrap_small; pow_consts; lia.
Qed.

(** ** Runs of the primitives *)

Lemma returns_ret {A : Type} (a : A) (pq : PriorityQueue) :
  returns (ret a) pq a pq.
Proof. split; reflexivity. Qed.

Lemma returns_bind {A B : Type} (m : M A) (k : A -> M B)
    (pq pq1 pq2 : PriorityQueue) (a : A) (b : B) :
  returns m pq a pq1 -> returns (k a) pq1 b pq2 ->
  returns (bind m k) pq b pq2.
Proof.
  intros [Hv Hf] [Hv' Hf']. unfold returns, bind. rewrite Hv. cbn.
  rewrite Hf. split; assumption.
Qed.

Lemma returns_vec_get (l : list T) (i : Z) (x : T) :
  l !! Z.to_nat i = Some x -> returns (vec_get i) (mkPQ l) x (mkPQ l).
Proof. intros Hx. unfold returns, vec_get. cbn. rewrite Hx. auto. Qed.

Lemma returns_vec_get_stale (l : list T) (i : Z) :
  l !! Z.to_nat i = None -> returns (vec_get i) (mkPQ l) (stale i) (mkPQ l).
Proof. intros Hx. unfold returns, vec_get. cbn. rewrite Hx. auto. Qed.

Lemma returns_vec_size (l : list T) :
  returns vec_size (mkPQ l) (Z.of_nat (length l)) (mkPQ l).
Proof. split; reflexivity. Qed.

Lemma returns_vec_set (l : list T) (i : Z) (v : T) :
  returns (vec_set i v) (mkPQ l) tt (mkPQ (<[Z.to_nat i := v]> l)).
Proof. split; reflexivity. Qed.

Lemma returns_push_back (l : list T) (v : T) :
  returns (push_back v) (mkPQ l) tt (mkPQ (l ++ [v])).
Proof. split; reflexivity. Qed.

Lemma returns_pop_back (l : list T) :
  returns pop_back (mkPQ l) tt (mkPQ (removelast l)).
Proof. split; reflexivity. Qed.

Lemma returns_size (l : list T) :
  1 <= Z.of_nat (length l) <= PTRDIFF_MAX ->
  returns size (mkPQ l) (Z.of_nat (length l) - 1) (mkPQ l).
Proof.
  clear stale LessT.
  intros Hl. unfold returns, size, bind, vec_size, ret. cbn.
  rewrite wrap_small by (pow_consts; lia). auto.
Qed.

Lemma returns_swap (l : list T) (a b : Z) :
  is_Some (l !! Z.to_nat a) -> is_Some (l !! Z.to_nat b) ->
  returns (swap a b) (mkPQ l) tt (mkPQ (swap_at (Z.to_nat a) (Z.to_nat b) l)).
Proof.
  intros [x Hx] [y Hy]. unfold returns, swap, swap_at, bind, vec_get, vec_set.
  cbn. rewrite Hx, Hy. auto.
Qed.

Lemma returns_leftInBounds (l : list T) (pos : Z) :
  1 <= Z.of_nat (length l) <= PTRDIFF_MAX ->
  0 <= pos <= PTRDIFF_MAX ->
  returns (leftInBounds pos) (mkPQ l)
    (2 * pos <=? Z.of_nat (length l) - 1) (mkPQ l).
Proof.
  intros Hl Hpos. unfold leftInBounds.
  eapply returns_bind; [apply returns_size, Hl |].
  rewrite leftChild_small by assumption. apply returns_ret.
Qed.

Lemma returns_rightInBounds (l : list T) (pos : Z) :
  1 <= Z.of_nat (length l) <= PTRDIFF_MAX ->
  0 <= pos <= PTRDIFF_MAX ->
  returns (rightInBounds pos) (mkPQ l)
    (2 * pos + 1 <=? Z.of_nat (length l) - 1) (mkPQ l).
Proof.
  intros Hl Hpos. unfold rightInBounds.
  eapply returns_bind; [apply returns_size, Hl |].
  rewrite rightChild_small by assumption. apply returns_ret.
Qed.

Lemma returns_minChild (l : list T) (pos : Z) :
  1 <= Z.of_nat (length l) <= PTRDIFF_MAX ->
  0 <= pos <= PTRDIFF_MAX ->
  returns (minChild pos) (mkPQ l)
    (Z.of_nat (spec_minChild l (Z.to_nat pos))) (mkPQ l).
Proof.
  intros Hl Hpos. unfold minChild, spec_minChild.
  eapply returns_bind; [apply returns_leftInBounds; assumption |].
  replace (2 * Z.to_nat pos)%nat with (Z.to_nat (2 * pos)) by lia.
  replace (Z.to_nat (2 * pos) + 1)%nat with (Z.to_nat (2 * pos + 1)) by lia.
  destruct (Z.leb_spec (2 * pos) (Z.of_nat (length l) - 1)) as [HL | HL].
  - eapply returns_bind; [apply returns_rightInBounds; assumption |].
    destruct (lookup_lt_is_Some_2 l (Z.to_nat (2 * pos)) ltac:(lia)) as [a Ha].
    rewrite Ha.
    destruct (Z.leb_spec (2 * pos + 1) (Z.of_nat (length l) - 1)) as [HR | HR];
      cbn [andb].
    + destruct (lookup_lt_is_Some_2 l (Z.to_nat (2 * pos + 1)) ltac:(lia))
        as [b Hb].
      rewrite Hb.
      rewrite leftChild_small, rightChild_small by assumption.
      eapply returns_bind; [apply returns_vec_get, Ha |].
      eapply returns_bind; [apply returns_vec_get, Hb |].
      destruct (less a b).
      * replace (Z.of_nat (Z.to_nat (2 * pos))) with (2 * pos) by lia.
        apply returns_ret.
      * replace (Z.of_nat (Z.to_nat (2 * pos + 1))) with (2 * pos + 1) by lia.
        apply returns_ret.
    + rewrite (proj2 (lookup_ge_None l (Z.to_nat (2 * pos + 1)))) by lia.
      rewrite leftChild_small by assumption.
      replace (Z.of_nat (Z.to_nat (2 * pos))) with (2 * pos) by lia.
      apply returns_ret.
  - eapply returns_bind; [apply returns_ret |]. cbn [andb].
    rewrite (proj2 (lookup_ge_None l (Z.to_nat (2 * pos)))) by lia.
    replace (Z.of_nat (Z.to_nat pos)) with pos by lia.
    apply returns_ret.
Qed.

(** ** The loops against the sifts *)

Lemma pow2_succ (f : nat) : 2 ^ Z.of_nat (S f) = 2 * 2 ^ Z.of_nat f.
Proof. rewrite Nat2Z.inj_succ. apply Z.pow_succ_r. lia. Qed.

Lemma pow2_pos (f : nat) : 0 < 2 ^ Z.of_nat f.
Proof. apply Z.pow_pos_nonneg; lia. Qed.

Lemma returns_removeMin_loop (fuel : nat) :
  forall (l : list T) (i : Z),
    1 <= Z.of_nat (length l) <= PTRDIFF_MAX ->
    1 <= i <= PTRDIFF_MAX ->
    (1 <= fuel)%nat ->
    Z.of_nat (length l) <= i * 2 ^ Z.of_nat fuel ->
    returns (removeMin_loop fuel i) (mkPQ l) tt
      (mkPQ (spec_siftDown l (Z.to_nat i))).
Proof.
  induction fuel as [| f IH]; intros l i Hl Hi Hfuel Hbound; [lia |].
  cbn [removeMin_loop].
  eapply returns_bind; [apply returns_minChild; lia |].
  rewrite spec_siftDown_step.
  pose proof (spec_minChild_range l (Z.to_nat i)) as Hrange.
  assert (Hedge : l !! (2 * Z.to_nat i)%nat = None ->
                  spec_minChild l (Z.to_nat i) = Z.to_nat i).
  { intros HL. unfold spec_minChild. rewrite HL. reflexivity. }
  pose proof (spec_minChild_in_bounds l (Z.to_nat i)) as Hin.
  set (m := spec_minChild l (Z.to_nat i)) in *. clearbody m.
  destruct (l !! m) as [a |] eqn:Ha.
  - pose proof (lookup_lt_Some _ _ _ Ha) as Hm.
    destruct (l !! Z.to_nat i) as [b |] eqn:Hb.
    + eapply returns_bind;
        [apply returns_vec_get; rewrite Nat2Z.id; exact Ha |].
      eapply returns_bind; [apply returns_vec_get; exact Hb |].
      destruct (less a b) eqn:Hlt; [| apply returns_ret].
      assert (Hne : m <> Z.to_nat i).
      { intros ->. rewrite Ha in Hb. simplify_eq.
        rewrite less_irrefl in Hlt. discriminate. }
      eapply returns_bind.
      { apply returns_swap; rewrite ?Nat2Z.id; eauto. }
      rewrite Nat2Z.id.
      pose proof (IH (swap_at (Z.to_nat i) m l) (Z.of_nat m)) as IH'.
      rewrite Nat2Z.id in IH'.
      pose proof (pow2_pos f) as Hpos. rewrite pow2_succ in Hbound.
      apply IH'; rewrite ?swap_at_length; try lia.
      destruct f; [cbn in Hbound; lia | lia].
    + apply lookup_ge_None in Hb.
      rewrite Hedge in Hm by (apply lookup_ge_None; lia). lia.
  - apply lookup_ge_None in Ha.
    assert (Hmi : m = Z.to_nat i).
    { destruct (decide (m = Z.to_nat i)) as [Heq | Hne]; [exact Heq |].
      destruct (Hin Hne) as [x Hx]. discriminate. }
    subst m. rewrite Z2Nat.id by lia.
    eapply returns_bind; [apply returns_vec_get_stale, lookup_ge_None; lia |].
    eapply returns_bind; [apply returns_vec_get_stale, lookup_ge_None; lia |].
    rewrite less_irrefl. apply returns_ret.
Qed.

Lemma returns_insert_loop (fuel : nat) (val : T) :
  forall (l : list T) (e : Z),
    1 <= Z.of_nat (length l) <= PTRDIFF_MAX ->
    1 <= e ->
    l !! Z.to_nat e = Some val ->
    e < 2 ^ Z.of_nat fuel ->
    returns (insert_loop fuel val e) (mkPQ l) tt
      (mkPQ (spec_siftUp l (Z.to_nat e))).
Proof.
  induction fuel as [| f IH]; intros l e Hl He Hval Hbound.
  - cbn in Hbound. lia.
  - cbn [insert_loop]. rewrite spec_siftUp_step.
    pose proof (lookup_lt_Some _ _ _ Hval) as Hlen.
    destruct (Z.ltb_spec 1 e) as [Hgt | Hle];
      destruct (Nat.ltb_spec 1 (Z.to_nat e)) as [Hgt' | Hle']; try lia;
      [| apply returns_ret].
    rewrite Hval, parent_div.
    replace (Z.to_nat e / 2)%nat with (Z.to_nat (e / 2)) by lia.
    destruct (lookup_lt_is_Some_2 l (Z.to_nat (e / 2)) ltac:(lia)) as [p Hp].
    rewrite Hp.
    eapply returns_bind; [apply returns_vec_get, Hp |].
    destruct (less val p); [| apply returns_ret].
    eapply returns_bind; [apply returns_swap; eauto |].
    rewrite pow2_succ in Hbound.
    apply IH; rewrite ?swap_at_length; try lia.
    rewrite (swap_at_lookup _ _ _ _ _ _ Hval Hp).
    rewrite decide_True by reflexivity. reflexivity.
Qed.

(** ** The public calls against the specification's algorithms *)

Lemma fuel_enough (fuel : nat) : (64 <= fuel)%nat -> 2 ^ 64 <= 2 ^ Z.of_nat fuel.
Proof. intros Hf. apply Z.pow_le_mono_r; lia. Qed.

Lemma returns_insert (fuel : nat) (v : T) (l : list T) :
  1 <= Z.of_nat (length l) < PTRDIFF_MAX ->
  (64 <= fuel)%nat ->
  returns (insert fuel v) (mkPQ l) tt (mkPQ (spec_insert v l)).
Proof.
  intros Hl Hf. unfold insert.
  eapply returns_bind; [apply returns_push_back |].
  eapply returns_bind.
  { apply returns_size. rewrite length_app. cbn. lia. }
  rewrite length_app. cbn [length].
  replace (Z.of_nat (length l + 1) - 1) with (Z.of_nat (length l)) by lia.
  pose proof (returns_insert_loop fuel v (l ++ [v]) (Z.of_nat (length l))) as H.
  rewrite Nat2Z.id in H. apply H.
  - rewrite length_app. cbn. lia.
  - lia.
  - rewrite lookup_app_r, Nat.sub_diag by lia. reflexivity.
  - pose proof (fuel_enough fuel Hf). pow_consts. lia.
Qed.

Lemma removelast_take (l : list T) : removelast l = take (length l - 1) l.
Proof.
  rewrite removelast_firstn_len. f_equal. lia.
Qed.

Lemma returns_removeMin (fuel : nat) (l l' : list T) (r : T) :
  2 <= Z.of_nat (length l) <= PTRDIFF_MAX ->
  (64 <= fuel)%nat ->
  spec_removeMin l = Some (r, l') ->
  returns (removeMin fuel) (mkPQ l) r (mkPQ l').
Proof.
  intros Hl Hf Hspec. unfold spec_removeMin in Hspec.
  destruct (l !! 1%nat) as [root |] eqn:Hr; [| discriminate].
  destruct (l !! (length l - 1)%nat) as [x |] eqn:Hx; [| discriminate].
  simplify_eq. unfold removeMin.
  eapply returns_bind; [apply returns_vec_get; exact Hr |].
  eapply returns_bind.
  { unfold vec_back. eapply returns_bind; [apply returns_vec_size |].
    rewrite wrap_small by (pow_consts; lia).
    apply returns_vec_get.
    replace (Z.to_nat (Z.of_nat (length l) - 1)) with (length l - 1)%nat by lia.
    exact Hx. }
  eapply returns_bind; [apply returns_vec_set |].
  eapply returns_bind; [apply returns_pop_back |].
  rewrite removelast_take, length_insert.
  eapply returns_bind; [| apply returns_ret].
  change 1%nat with (Z.to_nat 1) at 3.
  pose proof (fuel_enough fuel Hf).
  apply returns_removeMin_loop;
    rewrite ?length_take, ?length_insert; pow_consts; lia.
Qed.

Lemma returns_insert_fuel (fuel : nat) (v : T) (l : list T) :
  1 <= Z.of_nat (length l) < PTRDIFF_MAX ->
  Z.of_nat (length l) < 2 ^ Z.of_nat fuel ->
  returns (insert fuel v) (mkPQ l) tt (mkPQ (spec_insert v l)).
Proof.
  intros Hl Hf. unfold insert.
  eapply returns_bind; [apply returns_push_back |].
  eapply returns_bind.
  { apply returns_size. rewrite length_app. cbn. lia. }
  rewrite length_app. cbn [length].
  replace (Z.of_nat (length l + 1) - 1) with (Z.of_nat (length l)) by lia.
  pose proof (returns_insert_loop fuel v (l ++ [v]) (Z.of_nat (length l))) as H.
  rewrite Nat2Z.id in H. apply H.
  - rewrite length_app. cbn. lia.
  - lia.
  - rewrite lookup_app_r, Nat.sub_diag by lia. reflexivity.
  - exact Hf.
Qed.

Lemma returns_removeMin_fuel (fuel : nat) (l l' : list T) (r : T) :
  2 <= Z.of_nat (length l) <= PTRDIFF_MAX ->
  (1 <= fuel)%nat ->
  Z.of_nat (length l) - 1 <= 2 ^ Z.of_nat fuel ->
  spec_removeMin l = Some (r, l') ->
  returns (removeMin fuel) (mkPQ l) r (mkPQ l').
Proof.
  intros Hl Hf Hpow Hspec. unfold spec_removeMin in Hspec.
  destruct (l !! 1%nat) as [root |] eqn:Hr; [| discriminate].
  destruct (l !! (length l - 1)%nat) as [x |] eqn:Hx; [| discriminate].
  simplify_eq. unfold removeMin.
  eapply returns_bind; [apply returns_vec_get; exact Hr |].
  eapply returns_bind.
  { unfold vec_back. eapply returns_bind; [apply returns_vec_size |].
    rewrite wrap_small by (pow_consts; lia).
    apply returns_vec_get.
    replace (Z.to_nat (Z.of_nat (length l) - 1)) with (length l - 1)%nat by lia.
    exact Hx. }
  eapply returns_bind; [apply returns_vec_set |].
  eapply returns_bind; [apply returns_pop_back |].
  rewrite removelast_take, length_insert.
  eapply returns_bind; [| apply returns_ret].
  change 1%nat with (Z.to_nat 1) at 3.
  apply returns_removeMin_loop;
    rewrite ?length_take, ?length_insert; pow_consts; lia.
Qed.

Lemma returns_min (l : list T) (r : T) :
  l !! 1%nat = Some r -> returns min (mkPQ l) r (mkPQ l).
Proof. intros Hr. apply returns_vec_get. exact Hr. Qed.

(** ** Accesses within the vector *)

Lemma in_bounds_ret {A : Type} (a : A) (pq : PriorityQueue) :
  in_bounds_run (ret a) pq.
Proof. constructor. Qed.

Lemma in_bounds_bind {A B : Type} (m : M A) (k : A -> M B)
    (pq pq1 : PriorityQueue) (a : A) :
  returns m pq a pq1 -> in_bounds_run m pq -> in_bounds_run (k a) pq1 ->
  in_bounds_run (bind m k) pq.
Proof.
  intros [Hv Hf] Hm Hk. unfold in_bounds_run, bind in *. rewrite Hv. cbn.
  rewrite Hf. apply Forall_app. split; assumption.
Qed.

Lemma in_bounds_bind_any {A B : Type} (m : M A) (k : A -> M B)
    (pq : PriorityQueue) :
  in_bounds_run m pq ->
  (forall a, value (m pq) = Some a -> in_bounds_run (k a) (final (m pq))) ->
  in_bounds_run (bind m k) pq.
Proof.
  intros Hm Hk. unfold in_bounds_run, bind in *.
  destruct (value (m pq)) as [a |]; cbn; [| exact Hm].
  apply Forall_app. split; [exact Hm | apply Hk; reflexivity].
Qed.

Lemma in_bounds_vec_get (l : list T) (i : Z) :
  0 <= i < Z.of_nat (length l) -> in_bounds_run (vec_get i) (mkPQ l).
Proof.
  intros Hi. repeat constructor. unfold in_range. cbn. lia.
Qed.

Lemma in_bounds_vec_set (l : list T) (i : Z) (v : T) :
  0 <= i < Z.of_nat (length l) -> in_bounds_run (vec_set i v) (mkPQ l).
Proof.
  intros Hi. repeat constructor. unfold in_range. cbn. lia.
Qed.

Lemma in_bounds_size (l : list T) : in_bounds_run size (mkPQ l).
Proof. constructor. Qed.

Lemma in_bounds_leftInBounds (l : list T) (pos : Z) :
  in_bounds_run (leftInBounds pos) (mkPQ l).
Proof. constructor. Qed.

Lemma in_bounds_rightInBounds (l : list T) (pos : Z) :
  in_bounds_run (rightInBounds pos) (mkPQ l).
Proof. constructor. Qed.

Lemma in_bounds_swap (l : list T) (a b : Z) :
  0 <= a < Z.of_nat (length l) -> 0 <= b < Z.of_nat (length l) ->
  in_bounds_run (swap a b) (mkPQ l).
Proof.
  intros Ha Hb. repeat constructor; unfold in_range; cbn;
    rewrite ?length_insert; lia.
Qed.

Lemma in_bounds_minChild (l : list T) (pos : Z) :
  1 <= Z.of_nat (length l) <= PTRDIFF_MAX ->
  0 <= pos <= PTRDIFF_MAX ->
  in_bounds_run (minChild pos) (mkPQ l).
Proof.
  intros Hl Hpos. unfold minChild.
  eapply in_bounds_bind;
    [apply returns_leftInBounds; assumption | apply in_bounds_leftInBounds |].
  destruct (Z.leb_spec (2 * pos) (Z.of_nat (length l) - 1)) as [HL | HL].
  - eapply in_bounds_bind;
      [apply returns_rightInBounds; assumption | apply in_bounds_rightInBounds |].
    destruct (Z.leb_spec (2 * pos + 1) (Z.of_nat (length l) - 1)) as [HR | HR];
      cbn [andb]; [| apply in_bounds_ret].
    rewrite leftChild_small, rightChild_small by assumption.
    destruct (lookup_lt_is_Some_2 l (Z.to_nat (2 * pos)) ltac:(lia)) as [a Ha].
    destruct (lookup_lt_is_Some_2 l (Z.to_nat (2 * pos + 1)) ltac:(lia))
      as [b Hb].
    eapply in_bounds_bind;
      [apply returns_vec_get, Ha | apply in_bounds_vec_get; lia |].
    eapply in_bounds_bind;
      [apply returns_vec_get, Hb | apply in_bounds_vec_get; lia |].
    apply in_bounds_ret.
  - eapply in_bounds_bind; [apply returns_ret | apply in_bounds_ret |].
    apply in_bounds_ret.
Qed.

Lemma in_bounds_removeMin_loop (fuel : nat) :
  forall (l : list T) (i : Z),
    1 <= Z.of_nat (length l) <= PTRDIFF_MAX ->
    1 <= i < Z.of_nat (length l) ->
    in_bounds_run (removeMin_loop fuel i) (mkPQ l).
Proof.
  induction fuel as [| f IH]; intros l i Hl Hi; [constructor |].
  cbn [removeMin_loop].
  eapply in_bounds_bind;
    [apply returns_minChild; lia | apply in_bounds_minChild; lia |].
  pose proof (spec_minChild_range l (Z.to_nat i)) as Hrange.
  pose proof (spec_minChild_in_bounds l (Z.to_nat i)) as Hin.
  set (m := spec_minChild l (Z.to_nat i)) in *. clearbody m.
  assert (Hm : (m < length l)%nat).
  { destruct (decide (m = Z.to_nat i)) as [-> | Hne]; [lia |].
    destruct (Hin Hne) as [x Hx]. apply lookup_lt_Some in Hx. exact Hx. }
  destruct (lookup_lt_is_Some_2 l m Hm) as [a Ha].
  destruct (lookup_lt_is_Some_2 l (Z.to_nat i) ltac:(lia)) as [b Hb].
  eapply in_bounds_bind;
    [apply returns_vec_get; rewrite Nat2Z.id; exact Ha
    | apply in_bounds_vec_get; lia |].
  eapply in_bounds_bind;
    [apply returns_vec_get; exact Hb | apply in_bounds_vec_get; lia |].
  destruct (less a b) eqn:Hlt; [| apply in_bounds_ret].
  assert (Hne : m <> Z.to_nat i).
  { intros ->. rewrite Ha in Hb. simplify_eq.
    rewrite less_irrefl in Hlt. discriminate. }
  eapply in_bounds_bind.
  - apply returns_swap; rewrite ?Nat2Z.id; eauto.
  - apply in_bounds_swap; lia.
  - apply IH; rewrite swap_at_length; lia.
Qed.

Lemma in_bounds_insert_loop (fuel : nat) (val : T) :
  forall (l : list T) (e : Z),
    1 <= Z.of_nat (length l) <= PTRDIFF_MAX ->
    1 <= e < Z.of_nat (length l) ->
    in_bounds_run (insert_loop fuel val e) (mkPQ l).
Proof.
  induction fuel as [| f IH]; intros l e Hl He; [constructor |].
  cbn [insert_loop].
  destruct (Z.ltb_spec 1 e) as [Hgt | Hle]; [| apply in_bounds_ret].
  rewrite parent_div.
  destruct (lookup_lt_is_Some_2 l (Z.to_nat (e / 2)) ltac:(lia)) as [p Hp].
  eapply in_bounds_bind;
    [apply returns_vec_get, Hp | apply in_bounds_vec_get; lia |].
  destruct (less val p); [| apply in_bounds_ret].
  eapply in_bounds_bind.
  - apply returns_swap; [apply lookup_lt_is_Some_2; lia | eauto].
  - apply in_bounds_swap; lia.
  - apply IH; rewrite swap_at_length; lia.
Qed.

(** X5: every [operator[]] use of [insert] on a queue with its filler
    slot and room for one more entry is within the vector. *)
Lemma insert_in_bounds (fuel : nat) (v : T) (pq : PriorityQueue) :
  well_formed pq ->
  Z.of_nat (length (heap pq)) < PTRDIFF_MAX ->
  in_bounds_run (insert fuel v) pq.
Proof.
  intros Hwf Hroom. destruct pq as [l]. unfold well_formed in Hwf.
  cbn [heap] in *. unfold insert.
  eapply in_bounds_bind; [apply returns_push_back | constructor |].
  assert (Hlen : Z.of_nat (length (l ++ [v])) = Z.of_nat (length l) + 1)
    by (rewrite length_app; cbn; lia).
  eapply in_bounds_bind;
    [apply returns_size; lia | apply in_bounds_size |].
  apply in_bounds_insert_loop; lia.
Qed.

(** X6: every [operator[]] use of [removeMin] on a queue of two entries
    or more is within the vector. *)
Lemma removeMin_in_bounds (fuel : nat) (pq : PriorityQueue) :
  well_formed pq ->
  (2 <= length (live pq))%nat ->
  in_bounds_run (removeMin fuel) pq.
Proof.
  intros Hwf Hlive. destruct pq as [l]. unfold well_formed, live in *.
  cbn [heap] in *.
  assert (Hlen : (3 <= length l)%nat) by (destruct l; cbn in *; lia).
  destruct (lookup_lt_is_Some_2 l 1%nat ltac:(lia)) as [r Hr].
  destruct (lookup_lt_is_Some_2 l (length l - 1)%nat ltac:(lia)) as [x Hx].
  unfold removeMin.
  eapply in_bounds_bind;
    [apply returns_vec_get; exact Hr | apply in_bounds_vec_get; lia |].
  assert (Hback : returns vec_back (mkPQ l) x (mkPQ l)).
  { unfold vec_back. eapply returns_bind; [apply returns_vec_size |].
    rewrite wrap_small by (pow_consts; lia).
    apply returns_vec_get.
    replace (Z.to_nat (Z.of_nat (length l) - 1)) with (length l - 1)%nat by lia.
    exact Hx. }
  eapply in_bounds_bind; [exact Hback | |].
  { unfold vec_back.
    eapply in_bounds_bind; [apply returns_vec_size | constructor |].
    rewrite wrap_small by (pow_consts; lia). apply in_bounds_vec_get. lia. }
  eapply in_bounds_bind;
    [apply returns_vec_set | apply in_bounds_vec_set; lia |].
  eapply in_bounds_bind; [apply returns_pop_back | constructor |].
  rewrite removelast_take, length_insert.
  apply in_bounds_bind_any; [| intros; apply in_bounds_ret].
  apply in_bounds_removeMin_loop; rewrite length_take, length_insert; lia.
Qed.

(** ** Sequences of calls *)

Lemma returns_bind_inv {A B : Type} (m : M A) (k : A -> M B)
    (pq pq2 : PriorityQueue) (b : B) :
  returns (bind m k) pq b pq2 ->
  exists a pq1, returns m pq a pq1 /\ returns (k a) pq1 b pq2.
Proof.
  unfold returns, bind. destruct (value (m pq)) as [a |] eqn:Hv; cbn.
  - intros [Hb Hf]. exists a, (final (m pq)). auto.
  - intros [Hb _]. discriminate.
Qed.

Lemma returns_ret_inv {A : Type} (a b : A) (pq pq' : PriorityQueue) :
  returns (ret a) pq b pq' -> a = b /\ pq = pq'.
Proof. intros [Hv Hf]. cbn in *. split; congruence. Qed.

Lemma exec_app (fuel : nat) (cs1 cs2 : list call) :
  forall (pq pq1 pq2 : PriorityQueue) (o1 o2 : list T),
    returns (exec fuel cs1) pq o1 pq1 ->
    returns (exec fuel cs2) pq1 o2 pq2 ->
    returns (exec fuel (cs1 ++ cs2)) pq (o1 ++ o2) pq2.
Proof.
  induction cs1 as [| [v |] cs1 IH]; intros pq pq1 pq2 o1 o2 H1 H2; cbn.
  - apply returns_ret_inv in H1 as [<- <-]. exact H2.
  - cbn in H1. apply returns_bind_inv in H1 as (u & pq' & Hi & H1).
    eapply returns_bind; [exact Hi |]. eapply IH; eassumption.
  - cbn in H1. apply returns_bind_inv in H1 as (x & pq' & Hr & H1).
    apply returns_bind_inv in H1 as (xs & pq'' & H1 & Hret).
    apply returns_ret_inv in Hret as [<- <-].
    eapply returns_bind; [exact Hr |].
    eapply returns_bind; [eapply IH; eassumption |].
    apply returns_ret.
Qed.

Lemma nonempty_removals_take (k : nat) :
  forall (cs : list call) (n : nat),
    nonempty_removals n cs = true -> nonempty_removals n (take k cs) = true.
Proof.
  induction k as [| k IH]; intros cs n Hcs; [reflexivity |].
  destruct cs as [| [v |] cs]; cbn in *; [reflexivity | auto |].
  destruct n; [discriminate | auto].
Qed.

Lemma spec_insert_live (v : T) (l : list T) :
  (1 <= length l)%nat -> Permutation (tail (spec_insert v l)) (tail l ++ [v]).
Proof.
  intros Hl.
  replace (tail l ++ [v]) with (tail (l ++ [v]))
    by (destruct l; [cbn in Hl; lia | reflexivity]).
  apply perm_same_head_tail; [apply spec_insert_perm |].
  rewrite spec_insert_head by exact Hl. symmetry. apply lookup_app_l. lia.
Qed.

Lemma exec_sound (fuel : nat) (cs : list call) :
  forall (l : list T) (n : nat),
    (64 <= fuel)%nat ->
    length l = S n ->
    Z.of_nat (S n + length cs) <= PTRDIFF_MAX ->
    heap_order l ->
    nonempty_removals n cs = true ->
    exists (outs l' : list T),
      returns (exec fuel cs) (mkPQ l) outs (mkPQ l') /\
      heap_order l' /\
      (length l' + removals cs = S n + inserts cs)%nat /\
      length outs = removals cs /\
      l' !! 0%nat = l !! 0%nat /\
      Permutation (tail l ++ inserted cs) (outs ++ tail l').
Proof.
  induction cs as [| [v |] cs IH]; intros l n Hf Hlen Hmax Hord Hne.
  - exists [], l. cbn. rewrite app_nil_r.
    repeat split; try apply returns_ret; auto; lia.
  - cbn in Hne, Hmax.
    destruct (IH (spec_insert v l) (S n)) as (outs & l' & Hrun & Ho & Hl & Hn & Hh & Hp);
      auto using spec_insert_order.
    { rewrite spec_insert_length. lia. }
    { lia. }
    exists outs, l'. cbn.
    split; [| split; [| split; [| split; [| split]]]]; auto; try lia.
    + eapply returns_bind; [| exact Hrun].
      apply returns_insert; [lia | exact Hf].
    + rewrite Hh. apply spec_insert_head. lia.
    + rewrite <- Hp, spec_insert_live by lia.
      rewrite <- app_assoc. reflexivity.
  - cbn in Hne, Hmax. destruct n as [| n]; [discriminate |].
    destruct (spec_removeMin_some l ltac:(lia)) as (r & x & Hr & Hx & Hspec).
    set (l1 := spec_siftDown (take (length l - 1) (<[1%nat:=x]> l)) 1) in *.
    pose proof (spec_removeMin_length _ _ _ Hspec) as [Hl1 _].
    destruct (IH l1 n) as (outs & l' & Hrun & Ho & Hl & Hn & Hh & Hp); auto.
    { lia. }
    { lia. }
    { eapply spec_removeMin_order; eassumption. }
    exists (r :: outs), l'. cbn.
    split; [| split; [| split; [| split; [| split]]]]; auto; try lia.
    + eapply returns_bind; [apply returns_removeMin; [lia | exact Hf | exact Hspec] |].
      eapply returns_bind; [exact Hrun |]. apply returns_ret.
    + rewrite Hh. eapply spec_removeMin_head. exact Hspec.
    + rewrite (spec_removeMin_perm _ _ _ Hspec). cbn.
      apply perm_skip. exact Hp.
Qed.

Lemma drain_sorted (fuel : nat) (n : nat) :
  forall l : list T,
    (64 <= fuel)%nat ->
    length l = S n ->
    Z.of_nat (S n) <= PTRDIFF_MAX ->
    heap_order l ->
    exists (outs l' : list T),
      returns (exec fuel (repeat RemoveMin n)) (mkPQ l) outs (mkPQ l') /\
      length l' = 1%nat /\
      Permutation outs (tail l) /\
      StronglySorted leq outs.
Proof.
  induction n as [| n IH]; intros l Hf Hlen Hmax Hord.
  - exists [], l. cbn. repeat split; try assumption.
    + destruct l as [| s [| ? ?]]; try discriminate. reflexivity.
    + constructor.
  - destruct (spec_removeMin_some l ltac:(lia)) as (r & x & Hr & Hx & Hspec).
    set (l1 := spec_siftDown (take (length l - 1) (<[1%nat:=x]> l)) 1) in *.
    pose proof (spec_removeMin_length _ _ _ Hspec) as [Hl1 _].
    pose proof (spec_removeMin_perm _ _ _ Hspec) as Hperm.
    pose proof (spec_removeMin_min _ _ _ Hord Hspec) as [_ Hmin].
    destruct (IH l1) as (outs & l' & Hrun & Hl' & Hp & Hs); auto; try lia.
    { eapply spec_removeMin_order; eassumption. }
    exists (r :: outs), l'. cbn [repeat exec].
    split; [| split; [| split]]; auto.
    + eapply returns_bind; [apply returns_removeMin; [lia | exact Hf | exact Hspec] |].
      eapply returns_bind; [exact Hrun |]. apply returns_ret.
    + rewrite Hperm. apply perm_skip. exact Hp.
    + constructor; [exact Hs |].
      rewrite Hperm in Hmin. apply Forall_cons in Hmin as [_ Hmin].
      rewrite <- Hp in Hmin. exact Hmin.
Qed.

Lemma heap_order_new : heap_order [T_init].
Proof.
  intros i x p Hi Hx. apply lookup_lt_Some in Hx. cbn in Hx. lia.
Qed.

(** ** The checker *)

Lemma wrap32_small (z : Z) : 0 <= z < 2 ^ 32 -> wrap32 z = z.
Proof.
  clear stale LessT T. intros Hz. unfold wrap32. apply Z.mod_small. exact Hz. Qed.

Lemma returns_isHeapOrder_loop (fuel : nat) :
  forall (l : list T) (i : Z),
    1 <= Z.of_nat (length l) < 2 ^ 32 ->
    1 <= i <= Z.of_nat (length l) ->
    Z.of_nat (length l) - i + 1 <= Z.of_nat fuel ->
    (forall j : nat, (Z.to_nat i <= j)%nat -> strict_at l j) ->
    returns (isHeapOrder_loop fuel i true) (mkPQ l) true (mkPQ l).
Proof.
  induction fuel as [| f IH]; intros l i Hl Hi Hfuel Hstrict; [lia |].
  assert (Hl' : 1 <= Z.of_nat (length l) <= PTRDIFF_MAX) by (pow_consts; lia).
  assert (Hi' : 0 <= i <= PTRDIFF_MAX) by (pow_consts; lia).
  cbn [isHeapOrder_loop].
  eapply returns_bind; [apply returns_size, Hl' |].
  destruct (Z.leb_spec i (Z.of_nat (length l) - 1)) as [Hin | Hout];
    [| apply returns_ret].
  destruct (Hstrict (Z.to_nat i) ltac:(lia)) as (Hpar & Hleft & Hright).
  destruct (lookup_lt_is_Some_2 l (Z.to_nat i) ltac:(lia)) as [x Hx].
  eapply returns_bind with (a := true) (pq1 := mkPQ l).
  { rewrite parent_div.
    destruct (Z.ltb_spec 0 (i / 2)) as [Hp | Hp]; [| apply returns_ret].
    destruct (lookup_lt_is_Some_2 l (Z.to_nat (i / 2)) ltac:(lia)) as [p Hpx].
    eapply returns_bind; [apply returns_vec_get, Hpx |].
    eapply returns_bind; [apply returns_vec_get, Hx |].
    replace (Z.to_nat (i / 2)) with (Z.to_nat i / 2)%nat in Hpx by lia.
    rewrite (Hpar x p) by (assumption || lia). apply returns_ret. }
  eapply returns_bind; [apply returns_leftInBounds; assumption |].
  eapply returns_bind with (a := true) (pq1 := mkPQ l).
  { destruct (Z.leb_spec (2 * i) (Z.of_nat (length l) - 1)) as [Hc | Hc];
      [| apply returns_ret].
    rewrite leftChild_small by assumption.
    destruct (lookup_lt_is_Some_2 l (Z.to_nat (2 * i)) ltac:(lia)) as [c Hcx].
    eapply returns_bind; [apply returns_vec_get, Hx |].
    eapply returns_bind; [apply returns_vec_get, Hcx |].
    replace (Z.to_nat (2 * i)) with (2 * Z.to_nat i)%nat in Hcx by lia.
    rewrite (Hleft x c) by assumption. apply returns_ret. }
  eapply returns_bind; [apply returns_rightInBounds; assumption |].
  eapply returns_bind with (a := true) (pq1 := mkPQ l).
  { destruct (Z.leb_spec (2 * i + 1) (Z.of_nat (length l) - 1)) as [Hc | Hc];
      [| apply returns_ret].
    rewrite rightChild_small by assumption.
    destruct (lookup_lt_is_Some_2 l (Z.to_nat (2 * i + 1)) ltac:(lia)) as [c Hcx].
    eapply returns_bind; [apply returns_vec_get, Hx |].
    eapply returns_bind; [apply returns_vec_get, Hcx |].
    replace (Z.to_nat (2 * i + 1)) with (2 * Z.to_nat i + 1)%nat in Hcx by lia.
    rewrite (Hright x c) by assumption. apply returns_ret. }
  rewrite wrap32_small by lia.
  apply IH; try lia.
  intros j Hj. apply Hstrict. lia.
Qed.

Lemma strict_of_distinct (l : list T) :
  heap_order l -> pairwise_distinct (tail l) ->
  forall i : nat, (1 <= i)%nat -> strict_at l i.
Proof.
  intros Hord Hdist i Hi.
  assert (Htail : forall j, (1 <= j)%nat -> l !! j = tail l !! (j - 1)%nat).
  { intros j Hj. rewrite lookup_tail. f_equal. lia. }
  split; [| split].
  - intros x p Hp Hx Hpx.
    pose proof (Hord i x p ltac:(lia) Hx Hpx) as Hle.
    rewrite Htail in Hx, Hpx by lia.
    destruct (Hdist (i - 1)%nat (i / 2 - 1)%nat x p ltac:(lia) Hx Hpx)
      as [H | H]; congruence.
  - intros x c Hx Hc.
    assert (Hpar : ((2 * i) / 2)%nat = i) by lia.
    pose proof (Hord (2 * i)%nat c x ltac:(lia) Hc) as Hle.
    rewrite Hpar in Hle. specialize (Hle Hx).
    rewrite Htail in Hx, Hc by lia.
    destruct (Hdist (i - 1)%nat (2 * i - 1)%nat x c ltac:(lia) Hx Hc)
      as [H | H]; congruence.
  - intros x c Hx Hc.
    assert (Hpar : ((2 * i + 1) / 2)%nat = i) by lia.
    pose proof (Hord (2 * i + 1)%nat c x ltac:(lia) Hc) as Hle.
    rewrite Hpar in Hle. specialize (Hle Hx).
    rewrite Htail in Hx, Hc by lia.
    destruct (Hdist (i - 1)%nat (2 * i + 1 - 1)%nat x c ltac:(lia) Hx Hc)
      as [H | H]; congruence.
Qed.

(** ** The properties of the specification *)

(** C1: inserting the entries of any list [xs] one by one into a fresh
    queue and then calling [removeMin] as many times returns the entries
    of [xs] (the same multiset) in non-decreasing order. *)
Theorem insert_all_then_removeMin_sorts (fuel : nat) (xs : list T) :
  (64 <= fuel)%nat ->
  Z.of_nat (length xs) < PTRDIFF_MAX ->
  exists outs : list T,
    value (exec fuel (map Insert xs ++ repeat RemoveMin (length xs))
             PriorityQueue_new) = Some outs /\
    Permutation outs xs /\
    StronglySorted leq outs.
Proof.
  intros Hf Hmax.
  assert (Hins : inserted (map Insert xs) = xs /\ inserts (map Insert xs) = length xs
                 /\ removals (map Insert xs) = O
                 /\ forall n, nonempty_removals n (map Insert xs) = true).
  { clear. induction xs as [| x xs (IH1 & IH2 & IH3 & IH4)]; cbn; [auto |].
    rewrite IH1, IH2, IH3. auto. }
  destruct Hins as (Hi1 & Hi2 & Hi3 & Hi4).
  destruct (exec_sound fuel (map Insert xs) [T_init] 0)
    as (o1 & l1 & Hrun1 & Ho1 & Hl1 & Hn1 & _ & Hp1); auto.
  { rewrite length_map. lia. }
  { intros i x p Hi Hx. apply lookup_lt_Some in Hx. cbn in Hx. lia. }
  rewrite Hi1 in Hp1. rewrite Hi2, Hi3 in Hl1. rewrite Hi3 in Hn1.
  destruct o1; [| discriminate]. cbn in Hp1.
  destruct (drain_sorted fuel (length xs) l1)
    as (o2 & l2 & Hrun2 & Hl2 & Hp2 & Hs2); auto; try lia.
  exists o2. split; [| split]; [| | exact Hs2].
  - pose proof (exec_app _ _ _ _ _ _ _ _ Hrun1 Hrun2) as [Hv _]. exact Hv.
  - rewrite Hp2, <- Hp1. reflexivity.
Qed.

(** C2: along every sequence of [insert] and [removeMin] calls whose
    [removeMin] calls each meet a non-empty queue, after each call (after
    every prefix of the sequence) no stored entry is strictly less than
    the entry at its parent position. *)
Theorem heap_order_after_each_call (fuel : nat) (cs : list call) (k : nat) :
  (64 <= fuel)%nat ->
  Z.of_nat (length cs) < PTRDIFF_MAX ->
  nonempty_removals 0 cs = true ->
  exists (outs : list T) (pq' : PriorityQueue),
    value (exec fuel (take k cs) PriorityQueue_new) = Some outs /\
    final (exec fuel (take k cs) PriorityQueue_new) = pq' /\
    heap_order (heap pq').
Proof.
  intros Hf Hmax Hne.
  destruct (exec_sound fuel (take k cs) [T_init] 0)
    as (outs & l' & [Hv Hfin] & Ho & _); auto using heap_order_new.
  - rewrite length_take. lia.
  - apply nonempty_removals_take. exact Hne.
  - exists outs, (mkPQ l'). auto.
Qed.

(** C3: when [size()] is 0 neither [min] nor [removeMin] raises an error:
    each begins by reading [heap[1]], one past the end of the one-slot
    vector, which the source leaves undefined; [min] returns whatever is
    read there and leaves the queue as it is. *)
Theorem empty_queue_calls_read_past_end (fuel : nat) (pq : PriorityQueue) :
  well_formed pq ->
  value (size pq) = Some 0 ->
  value (min pq) = Some (stale 1) /\
  final (min pq) = pq /\
  accesses (min pq) = [Access false 1 1] /\
  in_range (Access false 1 1) = false /\
  exists rest : list access,
    accesses (removeMin fuel pq) = Access false 1 1 :: rest.
Proof.
  intros Hwf Hsize. destruct pq as [l]. unfold well_formed in Hwf.
  cbn [heap] in Hwf.
  destruct (returns_size l Hwf) as [Hs _]. rewrite Hs in Hsize.
  assert (Hlen : length l = 1%nat) by (injection Hsize; lia).
  destruct l as [| s [| ? ?]]; try discriminate.
  split; [reflexivity |]. split; [reflexivity |]. split; [reflexivity |].
  split; [reflexivity |].
  unfold removeMin, bind at 1. cbn. eauto.
Qed.

(** C4: after every sequence of [insert] and [removeMin] calls, each
    [removeMin] on a non-empty queue, no entry at a position from 1 to
    [size()] is less than its parent and no child in bounds is less than
    it; when no two stored entries are equivalent the relation is the
    strict one of the inspection interface at every such position, and
    [isHeapOrder] returns [true]. *)
Theorem strict_order_when_distinct (fuel fuel' : nat) (cs : list call)
    (outs : list T) (pq : PriorityQueue) :
  (64 <= fuel)%nat ->
  Z.of_nat (length cs) < 2 ^ 32 - 1 ->
  nonempty_removals 0 cs = true ->
  returns (exec fuel cs) PriorityQueue_new outs pq ->
  heap_order (heap pq) /\
  (pairwise_distinct (live pq) ->
   (forall i : nat, (1 <= i)%nat -> strict_at (heap pq) i) /\
   ((length (heap pq) <= fuel')%nat ->
    value (isHeapOrder fuel' pq) = Some true)).
Proof.
  intros Hf Hmax Hne [Hv Hfin].
  destruct (exec_sound fuel cs [T_init] 0)
    as (outs' & l' & [Hv' Hfin'] & Hord & Hl & _ & Hh & _);
    auto using heap_order_new.
  { pow_consts. lia. }
  unfold PriorityQueue_new in Hfin. rewrite Hfin' in Hfin. subst pq.
  unfold live. cbn [heap].
  split; [exact Hord |]. intros Hdist.
  pose proof (strict_of_distinct l' Hord Hdist) as Hstrict.
  split; [exact Hstrict |]. intros Hfuel.
  apply lookup_lt_Some in Hh.
  assert (Hcount : (inserts cs + removals cs <= length cs)%nat).
  { clear. induction cs as [| [v |] cs IH]; cbn; lia. }
  apply (returns_isHeapOrder_loop fuel' l' 1); try lia.
  intros j Hj. apply Hstrict. lia.
Qed.

(** C5: on a queue with [size() >= 1], [removeMin] does what the
    specification words: it saves the root, moves the last entry to the
    root, drops the last slot, sifts down from the root through minimum
    children while the minimum child's entry is strictly less, and returns
    the saved root. *)
Theorem removeMin_refines_spec (fuel : nat) (pq : PriorityQueue) :
  (64 <= fuel)%nat ->
  well_formed pq ->
  live pq <> [] ->
  exists (r : T) (l' : list T),
    spec_removeMin (heap pq) = Some (r, l') /\
    heap pq !! 1%nat = Some r /\
    value (removeMin fuel pq) = Some r /\
    final (removeMin fuel pq) = mkPQ l' /\
    length l' = (length (heap pq) - 1)%nat /\
    (forall pos : Z,
       1 <= pos <= PTRDIFF_MAX ->
       value (minChild pos pq)
       = Some (Z.of_nat (spec_minChild (heap pq) (Z.to_nat pos)))).
Proof.
  intros Hf Hwf Hlive. destruct pq as [l]. unfold well_formed, live in *.
  cbn [heap] in *.
  assert (Hlen : (2 <= length l)%nat).
  { destruct l as [| s [| r rest]]; cbn in *; try lia; congruence. }
  destruct (spec_removeMin_some l Hlen) as (r & x & Hr & Hx & Hspec).
  destruct (returns_removeMin fuel l _ r ltac:(lia) Hf Hspec) as [Hv Hfin].
  pose proof (spec_removeMin_length _ _ _ Hspec) as [Hl' _].
  exists r, (spec_siftDown (take (length l - 1) (<[1%nat:=x]> l)) 1).
  split; [exact Hspec |]. split; [exact Hr |]. split; [exact Hv |].
  split; [exact Hfin |]. split; [lia |].
  intros pos Hpos. apply returns_minChild; [exact Hwf | lia].
Qed.

(** C6: [insert(value)] does what the specification words: it appends
    [value] at the end of the array and sifts it up, swapping it with its
    parent while it is strictly less and not at the root; an entry that is
    not strictly less than its parent stays where it was appended. *)
Theorem insert_refines_spec (fuel : nat) (pq : PriorityQueue) (v : T) :
  (64 <= fuel)%nat ->
  well_formed pq ->
  Z.of_nat (length (heap pq)) < PTRDIFF_MAX ->
  value (insert fuel v pq) = Some tt /\
  final (insert fuel v pq) = mkPQ (spec_insert v (heap pq)) /\
  (forall p : T,
     heap pq !! (length (heap pq) / 2)%nat = Some p -> less v p = false ->
     final (insert fuel v pq) = mkPQ (heap pq ++ [v])).
Proof.
  intros Hf Hwf Hroom. destruct pq as [l]. unfold well_formed in *.
  cbn [heap] in *.
  destruct (returns_insert fuel v l) as [Hv Hfin]; [lia | exact Hf |].
  split; [exact Hv |]. split; [exact Hfin |].
  intros p Hp Hlt. rewrite Hfin. f_equal.
  unfold spec_insert. rewrite spec_siftUp_step.
  destruct (Nat.ltb_spec 1 (length l)); [| reflexivity].
  rewrite lookup_app_r, Nat.sub_diag by lia.
  change ([v] !! 0%nat) with (Some v).
  rewrite lookup_app_l by lia. rewrite Hp, Hlt. reflexivity.
Qed.

(** C7: on every non-empty queue reached by [insert] and [removeMin]
    calls, [min] returns the entry stored at the root position, which is
    a stored entry that no stored entry is less than, and leaves the queue
    as it is; two calls in a row return the same value and [size()] is
    unchanged. *)
Theorem min_returns_minimum (fuel : nat) (cs : list call)
    (outs : list T) (pq : PriorityQueue) :
  (64 <= fuel)%nat ->
  Z.of_nat (length cs) < PTRDIFF_MAX ->
  nonempty_removals 0 cs = true ->
  returns (exec fuel cs) PriorityQueue_new outs pq ->
  live pq <> [] ->
  exists r : T,
    heap pq !! 1%nat = Some r /\
    In r (live pq) /\
    Forall (leq r) (live pq) /\
    value (min pq) = Some r /\
    final (min pq) = pq /\
    returns (a <- min ;; b <- min ;; ret (a, b)) pq (r, r) pq /\
    value (size (final (min pq))) = value (size pq).
Proof.
  intros Hf Hmax Hne [Hv Hfin] Hlive.
  destruct (exec_sound fuel cs [T_init] 0)
    as (outs' & l' & [Hv' Hfin'] & Hord & _); auto using heap_order_new.
  { lia. }
  unfold PriorityQueue_new in Hfin.
  rewrite Hfin' in Hfin. subst pq. unfold live in *. cbn [heap] in *.
  destruct l' as [| s [| r rest]]; try (exfalso; apply Hlive; reflexivity).
  exists r. cbn [tail].
  assert (Hr : (s :: r :: rest) !! 1%nat = Some r) by reflexivity.
  pose proof (returns_min _ _ Hr) as Hmin.
  split; [exact Hr |]. split; [left; reflexivity |].
  split.
  { apply Forall_lookup_2. intros i y Hy.
    apply (heap_order_root_min _ r Hord Hr (S i)); [lia | exact Hy]. }
  destruct Hmin as [Hmv Hmf].
  split; [exact Hmv |]. split; [exact Hmf |]. split.
  - eapply returns_bind; [split; eassumption |].
    eapply returns_bind; [split; eassumption |]. apply returns_ret.
  - rewrite Hmf. reflexivity.
Qed.

(** C8: after any interleaving of [k] [insert] calls and [j] [removeMin]
    calls, each [removeMin] on a non-empty queue, [j <= k] and [size()]
    returns [k - j]; on a fresh queue [size()] returns 0. *)
Theorem size_accounting (fuel : nat) (cs : list call) :
  (64 <= fuel)%nat ->
  Z.of_nat (length cs) < PTRDIFF_MAX ->
  nonempty_removals 0 cs = true ->
  value (size PriorityQueue_new) = Some 0 /\
  exists (outs : list T) (pq' : PriorityQueue),
    value (exec fuel cs PriorityQueue_new) = Some outs /\
    final (exec fuel cs PriorityQueue_new) = pq' /\
    (removals cs <= inserts cs)%nat /\
    value (size pq') = Some (Z.of_nat (inserts cs) - Z.of_nat (removals cs)).
Proof.
  intros Hf Hmax Hne. split; [reflexivity |].
  destruct (exec_sound fuel cs [T_init] 0)
    as (outs & l' & [Hv Hfin] & _ & Hl & _ & Hh & _); auto using heap_order_new.
  { lia. }
  exists outs, (mkPQ l'). split; [exact Hv |]. split; [exact Hfin |].
  apply lookup_lt_Some in Hh.
  assert (Hcount : (inserts cs + removals cs <= length cs)%nat).
  { clear. induction cs as [| [v |] cs IH]; cbn; lia. }
  split; [lia |].
  destruct (returns_size l') as [Hs _]; [lia |].
  rewrite Hs. f_equal. lia.
Qed.

(** C9: [removeMin] on a queue of one entry pops the vector down to the
    filler slot and then evaluates the loop condition
    [heap[minChild(1)] < heap[1]], reading index 1 of a vector of length 1
    twice; the call still returns the entry and leaves the queue empty. *)
Theorem removeMin_last_entry_reads_past_end (fuel : nat) (s x : T) :
  value (removeMin (S fuel) (mkPQ [s; x])) = Some x /\
  final (removeMin (S fuel) (mkPQ [s; x])) = mkPQ [s] /\
  accesses (removeMin (S fuel) (mkPQ [s; x])) =
    [Access false 1 2; Access false 1 2; Access true 1 2;
     Access false 1 1; Access false 1 1] /\
  in_range (Access false 1 1) = false.
Proof.
  unfold removeMin. cbn [removeMin_loop].
  cbv -[less removeMin_loop]. rewrite less_irrefl. repeat split; reflexivity.
Qed.

(** C10: [insert(v)] adds one occurrence of [v] to the stored entries and
    changes nothing else of the multiset; [removeMin] on a non-empty queue
    removes one occurrence of the value it returns and nothing else;
    neither changes the filler at slot 0. *)
Theorem insert_removeMin_multiset (fuel : nat) (pq : PriorityQueue) (v : T) :
  (64 <= fuel)%nat ->
  well_formed pq ->
  (Z.of_nat (length (heap pq)) < PTRDIFF_MAX ->
   value (insert fuel v pq) = Some tt /\
   Permutation (live (final (insert fuel v pq))) (v :: live pq) /\
   heap (final (insert fuel v pq)) !! 0%nat = heap pq !! 0%nat) /\
  (live pq <> [] ->
   exists r : T,
     value (removeMin fuel pq) = Some r /\
     Permutation (live pq) (r :: live (final (removeMin fuel pq))) /\
     heap (final (removeMin fuel pq)) !! 0%nat = heap pq !! 0%nat).
Proof.
  intros Hf Hwf. destruct pq as [l]. unfold well_formed, live in *.
  cbn [heap] in *. split.
  - intros Hroom.
    destruct (returns_insert fuel v l) as [Hv Hfin]; [lia | exact Hf |].
    rewrite Hv, Hfin. cbn [heap].
    split; [reflexivity |]. split.
    + rewrite spec_insert_live by lia. symmetry. apply Permutation_cons_append.
    + apply spec_insert_head. lia.
  - intros Hlive.
    assert (Hlen : (2 <= length l)%nat).
    { destruct l as [| s [| r rest]]; cbn in *; try lia; congruence. }
    destruct (spec_removeMin_some l Hlen) as (r & x & Hr & Hx & Hspec).
    destruct (returns_removeMin fuel l _ r ltac:(lia) Hf Hspec) as [Hv Hfin].
    exists r. rewrite Hv, Hfin. cbn [heap].
    split; [reflexivity |]. split.
    + eapply spec_removeMin_perm. exact Hspec.
    + eapply spec_removeMin_head. exact Hspec.
Qed.

(** ** Further properties of the code *)

(** X1: the index helpers invert each other exactly below the wrap-around:
    for a [size_t] position, [parent(leftChild(loc))] and
    [parent(rightChild(loc))] are [loc] if and only if [loc] is at most
    [PTRDIFF_MAX]; from [2 ^ 63] on, [loc << 1] has lost its top bit. *)
Theorem parent_of_children (loc : Z) :
  0 <= loc < 2 ^ 64 ->
  (parent (leftChild loc) = loc /\ parent (rightChild loc) = loc
   /\ rightChild loc = leftChild loc + 1)
  <-> loc <= PTRDIFF_MAX.
Proof.
  clear stale LessT T.
  intros Hloc. split.
  - intros (Hl & _ & _). rewrite parent_div in Hl. unfold leftChild, wrap in Hl.
    rewrite Z.shiftl_mul_pow2 in Hl by lia. pow_consts. lia.
  - intros Hmax.
    rewrite leftChild_small, rightChild_small, !parent_div by lia. lia.
Qed.

(** X2: on a queue with its filler slot, [leftInBounds(pos)] and
    [rightInBounds(pos)] answer exactly whether the vector has an entry at
    [leftChild(pos)], at [rightChild(pos)]; they leave the queue as it is,
    and a right child in bounds has its left sibling in bounds. *)
Theorem child_bounds_checks (pq : PriorityQueue) (pos : Z) :
  well_formed pq ->
  0 <= pos <= PTRDIFF_MAX ->
  exists lb rb : bool,
    returns (leftInBounds pos) pq lb pq /\
    returns (rightInBounds pos) pq rb pq /\
    (lb = true <-> is_Some (heap pq !! Z.to_nat (leftChild pos))) /\
    (rb = true <-> is_Some (heap pq !! Z.to_nat (rightChild pos))) /\
    (rb = true -> lb = true).
Proof.
  clear stale LessT.
  intros Hwf Hpos. destruct pq as [l]. unfold well_formed in Hwf.
  cbn [heap] in *.
  exists (2 * pos <=? Z.of_nat (length l) - 1),
         (2 * pos + 1 <=? Z.of_nat (length l) - 1).
  rewrite leftChild_small, rightChild_small by assumption.
  rewrite !lookup_lt_is_Some, !Z.leb_le.
  split; [apply returns_leftInBounds; assumption |].
  split; [apply returns_rightInBounds; assumption |].
  repeat split; intros; lia.
Qed.

(** X3: [minChild(pos)] leaves the queue as it is and reads only within
    the vector; at a position without a left child it returns [pos]
    itself; otherwise it returns the position of a child in bounds whose
    entry no child of [pos] is less than. *)
Theorem minChild_result (pq : PriorityQueue) (pos : Z) :
  well_formed pq ->
  1 <= pos <= PTRDIFF_MAX ->
  exists m : Z,
    returns (minChild pos) pq m pq /\
    in_bounds_run (minChild pos) pq /\
    ((m = pos /\ heap pq !! Z.to_nat (2 * pos) = None) \/
     ((m = 2 * pos \/ m = 2 * pos + 1) /\
      exists a : T,
        heap pq !! Z.to_nat m = Some a /\
        forall (c : Z) (x : T),
          c = 2 * pos \/ c = 2 * pos + 1 ->
          heap pq !! Z.to_nat c = Some x -> less x a = false)).
Proof.
  intros Hwf Hpos. destruct pq as [l]. unfold well_formed in Hwf.
  cbn [heap] in *.
  exists (Z.of_nat (spec_minChild l (Z.to_nat pos))).
  split; [apply returns_minChild; [assumption | lia] |].
  split; [apply in_bounds_minChild; [assumption | lia] |].
  pose proof (spec_minChild_range l (Z.to_nat pos)) as Hrange.
  pose proof (spec_minChild_in_bounds l (Z.to_nat pos)) as Hin.
  pose proof (spec_minChild_least l (Z.to_nat pos)) as Hleast.
  assert (Hedge : spec_minChild l (Z.to_nat pos) = Z.to_nat pos ->
                  l !! (2 * Z.to_nat pos)%nat = None).
  { unfold spec_minChild.
    destruct (l !! (2 * Z.to_nat pos)%nat); [| reflexivity].
    destruct (l !! (2 * Z.to_nat pos + 1)%nat); [destruct (less _ _) |];
      intros; lia. }
  set (m := spec_minChild l (Z.to_nat pos)) in *. clearbody m.
  destruct (decide (m = Z.to_nat pos)) as [Heq | Hne].
  - left. split; [lia |].
    replace (Z.to_nat (2 * pos)) with (2 * Z.to_nat pos)%nat by lia. auto.
  - right. split; [lia |].
    destruct (Hin Hne) as [a Ha]. exists a. rewrite Nat2Z.id.
    split; [exact Ha |].
    intros c x Hc Hx. eapply (Hleast a ltac:(lia) Ha (Z.to_nat c)); [lia | exact Hx].
Qed.

(** X4: [swap(a, b)] on two positions within the vector exchanges the two
    entries and touches no other slot, and swapping the same two positions
    again restores the queue. *)
Theorem swap_exchanges (pq : PriorityQueue) (a b : Z) :
  0 <= a < Z.of_nat (length (heap pq)) ->
  0 <= b < Z.of_nat (length (heap pq)) ->
  exists pq' : PriorityQueue,
    returns (swap a b) pq tt pq' /\
    heap pq' !! Z.to_nat a = heap pq !! Z.to_nat b /\
    heap pq' !! Z.to_nat b = heap pq !! Z.to_nat a /\
    (forall k : nat, k <> Z.to_nat a -> k <> Z.to_nat b ->
       heap pq' !! k = heap pq !! k) /\
    returns (swap a b) pq' tt pq.
Proof.
  intros Ha Hb. destruct pq as [l]. cbn [heap] in *.
  destruct (lookup_lt_is_Some_2 l (Z.to_nat a) ltac:(lia)) as [x Hx].
  destruct (lookup_lt_is_Some_2 l (Z.to_nat b) ltac:(lia)) as [y Hy].
  pose proof (swap_at_lookup (Z.to_nat a) (Z.to_nat b)) as Hlook.
  assert (Hxa : swap_at (Z.to_nat a) (Z.to_nat b) l !! Z.to_nat a = Some y).
  { rewrite (Hlook _ l x y Hx Hy). repeat case_decide; congruence. }
  assert (Hyb : swap_at (Z.to_nat a) (Z.to_nat b) l !! Z.to_nat b = Some x).
  { rewrite (Hlook _ l x y Hx Hy). repeat case_decide; congruence. }
  exists (mkPQ (swap_at (Z.to_nat a) (Z.to_nat b) l)). cbn [heap].
  split; [apply returns_swap; eauto |].
  split; [congruence |]. split; [congruence |]. split.
  - intros k Hka Hkb. rewrite (Hlook _ l x y Hx Hy).
    repeat case_decide; congruence.
  - assert (Hinv : swap_at (Z.to_nat a) (Z.to_nat b)
                      (swap_at (Z.to_nat a) (Z.to_nat b) l) = l).
    { apply list_eq. intros k.
      rewrite (Hlook k _ y x Hxa Hyb).
      repeat case_decide; subst; try congruence.
      rewrite (Hlook _ l x y Hx Hy). repeat case_decide; congruence. }
    pose proof (returns_swap (swap_at (Z.to_nat a) (Z.to_nat b) l) a b
                  ltac:(eauto) ltac:(eauto)) as Hback.
    rewrite Hinv in Hback. exact Hback.
Qed.

(** X7: [size()] leaves the queue as it is and, with the filler slot in
    place, counts the stored entries; it is [SIZE_MAX] exactly when the
    vector has lost its filler slot. *)
Theorem size_counts_entries (pq : PriorityQueue) :
  Z.of_nat (length (heap pq)) <= PTRDIFF_MAX ->
  final (size pq) = pq /\
  (heap pq <> [] -> value (size pq) = Some (Z.of_nat (length (live pq)))) /\
  (value (size pq) = Some (2 ^ 64 - 1) <-> heap pq = []).
Proof.
  intros Hmax. destruct pq as [l]. unfold live. cbn [heap] in *.
  split; [reflexivity |].
  destruct l as [| s l].
  - split; [congruence |]. split; [reflexivity | intros _; reflexivity].
  - destruct (returns_size (s :: l)) as [Hv _]; [cbn [length] in *; lia |].
    rewrite Hv. split.
    + intros _. f_equal. cbn [length tail]. lia.
    + split; [| discriminate].
      intros Heq. injection Heq as Heq. cbn [length] in *. pow_consts. lia.
Qed.

Lemma strict_at_checks (l : list T) (i : nat) (x p : T) :
  l !! i = Some x -> l !! (i / 2)%nat = Some p ->
  strict_at l i <->
  ((1 <= i / 2)%nat -> less p x = true) /\
  (forall c, l !! (2 * i)%nat = Some c -> less x c = true) /\
  (forall c, l !! (2 * i + 1)%nat = Some c -> less x c = true).
Proof.
  intros Hx Hp. unfold strict_at. split.
  - intros (Ha & Hb & Hc). repeat split; eauto.
  - intros (Ha & Hb & Hc). repeat split.
    + intros x' p' Hi Hx' Hp'. simplify_eq. auto.
    + intros x' c Hx' Hc'. simplify_eq. auto.
    + intros x' c Hx' Hc'. simplify_eq. auto.
Qed.

Lemma returns_isHeapOrder_loop_exact (fuel : nat) :
  forall (l : list T) (i : Z) (yes : bool),
    1 <= Z.of_nat (length l) < 2 ^ 32 ->
    1 <= i <= Z.of_nat (length l) ->
    Z.of_nat (length l) - i + 1 <= Z.of_nat fuel ->
    exists b : bool,
      returns (isHeapOrder_loop fuel i yes) (mkPQ l) b (mkPQ l) /\
      (b = true <->
       yes = true /\ forall j : nat, (Z.to_nat i <= j)%nat -> strict_at l j).
Proof.
  induction fuel as [| f IH]; intros l i yes Hl Hi Hfuel; [lia |].
  assert (Hl' : 1 <= Z.of_nat (length l) <= PTRDIFF_MAX) by (pow_consts; lia).
  assert (Hi' : 0 <= i <= PTRDIFF_MAX) by (pow_consts; lia).
  cbn [isHeapOrder_loop].
  destruct (Z.leb_spec i (Z.of_nat (length l) - 1)) as [Hin | Hout].
  - destruct (lookup_lt_is_Some_2 l (Z.to_nat i) ltac:(lia)) as [x Hx].
    destruct (lookup_lt_is_Some_2 l (Z.to_nat i / 2)%nat ltac:(lia)) as [p Hp].
    set (yes1 := if 0 <? i / 2 then yes && less p x else yes).
    set (yes2 := match l !! (2 * Z.to_nat i)%nat with
                 | Some c => yes1 && less x c
                 | None => yes1
                 end).
    set (yes3 := match l !! (2 * Z.to_nat i + 1)%nat with
                 | Some c => yes2 && less x c
                 | None => yes2
                 end).
    destruct (IH l (wrap32 (i + 1)) yes3) as (b & Hret & Hiff);
      rewrite ?wrap32_small by lia; try lia.
    rewrite wrap32_small in Hret, Hiff by lia.
    exists b. split.
    + eapply returns_bind; [apply returns_size, Hl' |].
      destruct (Z.leb_spec i (Z.of_nat (length l) - 1)); [| lia].
      eapply returns_bind with (a := yes1) (pq1 := mkPQ l).
      { rewrite parent_div. unfold yes1.
        destruct (Z.ltb_spec 0 (i / 2)); [| apply returns_ret].
        eapply returns_bind.
        { apply returns_vec_get.
          replace (Z.to_nat (i / 2)) with (Z.to_nat i / 2)%nat by lia.
          exact Hp. }
        eapply returns_bind; [apply returns_vec_get, Hx |].
        apply returns_ret. }
      eapply returns_bind; [apply returns_leftInBounds; assumption |].
      eapply returns_bind with (a := yes2) (pq1 := mkPQ l).
      { unfold yes2.
        destruct (Z.leb_spec (2 * i) (Z.of_nat (length l) - 1)) as [Hc | Hc].
        - destruct (lookup_lt_is_Some_2 l (2 * Z.to_nat i)%nat ltac:(lia))
            as [c Hcx].
          rewrite Hcx, leftChild_small by assumption.
          eapply returns_bind; [apply returns_vec_get, Hx |].
          eapply returns_bind.
          { apply returns_vec_get.
            replace (Z.to_nat (2 * i)) with (2 * Z.to_nat i)%nat by lia.
            exact Hcx. }
          apply returns_ret.
        - rewrite (proj2 (lookup_ge_None l (2 * Z.to_nat i)%nat)) by lia.
          apply returns_ret. }
      eapply returns_bind; [apply returns_rightInBounds; assumption |].
      eapply returns_bind with (a := yes3) (pq1 := mkPQ l).
      { unfold yes3.
        destruct (Z.leb_spec (2 * i + 1) (Z.of_nat (length l) - 1)) as [Hc | Hc].
        - destruct (lookup_lt_is_Some_2 l (2 * Z.to_nat i + 1)%nat ltac:(lia))
            as [c Hcx].
          rewrite Hcx, rightChild_small by assumption.
          eapply returns_bind; [apply returns_vec_get, Hx |].
          eapply returns_bind.
          { apply returns_vec_get.
            replace (Z.to_nat (2 * i + 1)) with (2 * Z.to_nat i + 1)%nat by lia.
            exact Hcx. }
          apply returns_ret.
        - rewrite (proj2 (lookup_ge_None l (2 * Z.to_nat i + 1)%nat)) by lia.
          apply returns_ret. }
      exact Hret.
    + assert (Hhere : yes3 = true <-> yes = true /\ strict_at l (Z.to_nat i)).
      { rewrite (strict_at_checks l (Z.to_nat i) x p Hx Hp).
        unfold yes3, yes2, yes1.
        destruct (Z.ltb_spec 0 (i / 2)) as [Hpar | Hpar];
          destruct (l !! (2 * Z.to_nat i)%nat) as [cl |];
          destruct (l !! (2 * Z.to_nat i + 1)%nat) as [cr |];
          rewrite ?andb_true_iff; split.
        all: try (intros; repeat split; intros; simplify_eq;
                  try tauto; try lia; fail).
        all: intros (Hyes & Ha & Hb & Hc);
          repeat split; auto; apply Ha; lia. }
      rewrite Hiff, Hhere. split.
      * intros ((Hyes & Hs) & Hrest). split; [exact Hyes |].
        intros j Hj. destruct (decide (j = Z.to_nat i)) as [-> | Hne];
          [exact Hs | apply Hrest; lia].
      * intros (Hyes & Hall). split; [split; [exact Hyes |] |].
        -- apply Hall. lia.
        -- intros j Hj. apply Hall. lia.
  - exists yes. split.
    + eapply returns_bind; [apply returns_size, Hl' |].
      destruct (Z.leb_spec i (Z.of_nat (length l) - 1)); [lia |].
      apply returns_ret.
    + split; [| tauto]. intros Hyes. split; [exact Hyes |].
      intros j Hj. unfold strict_at.
      rewrite (proj2 (lookup_ge_None l j)) by lia.
      repeat split; intros; discriminate.
Qed.

Lemma strict_root_least (l : list T) (r : T) :
  (forall i : nat, (1 <= i)%nat -> strict_at l i) ->
  l !! 1%nat = Some r ->
  forall (i : nat) (x : T), (2 <= i)%nat -> l !! i = Some x -> less r x = true.
Proof.
  intros Hstrict Hr i. induction i as [i IH] using lt_wf_ind. intros x Hi Hx.
  assert (Hp : is_Some (l !! (i / 2)%nat)).
  { apply lookup_lt_is_Some. apply lookup_lt_Some in Hx. lia. }
  destruct Hp as [p Hp].
  destruct (Hstrict i ltac:(lia)) as (Hpar & _ & _).
  pose proof (Hpar x p ltac:(lia) Hx Hp) as Hpx.
  destruct (decide ((i / 2)%nat = 1%nat)) as [Heq | Hne].
  - rewrite Heq, Hr in Hp. simplify_eq. exact Hpx.
  - eapply less_trans; [| exact Hpx].
    apply (IH (i / 2)%nat); [lia | lia | exact Hp].
Qed.

(** X8: on a queue of fewer than [2 ^ 32] slots [isHeapOrder] leaves the
    queue as it is and returns [true] exactly when the strict relation
    holds at every position: each entry strictly greater than its parent
    and strictly less than each child in bounds. *)
Theorem isHeapOrder_exact (fuel : nat) (pq : PriorityQueue) :
  1 <= Z.of_nat (length (heap pq)) < 2 ^ 32 ->
  (length (heap pq) <= fuel)%nat ->
  exists b : bool,
    returns (isHeapOrder fuel) pq b pq /\
    (b = true <-> forall i : nat, (1 <= i)%nat -> strict_at (heap pq) i).
Proof.
  intros Hl Hfuel. destruct pq as [l]. cbn [heap] in *.
  destruct (returns_isHeapOrder_loop_exact fuel l 1 true)
    as (b & Hret & Hiff); try lia.
  exists b. split; [exact Hret |].
  rewrite Hiff. split.
  - intros [_ Hall] i Hi. apply Hall. lia.
  - intros Hall. split; [reflexivity |]. intros j Hj. apply Hall. lia.
Qed.

(** X9: when [isHeapOrder] returns [true] the queue is in heap order and
    its root is strictly less than every other stored entry. *)
Theorem isHeapOrder_sound (fuel : nat) (pq : PriorityQueue) :
  1 <= Z.of_nat (length (heap pq)) < 2 ^ 32 ->
  (length (heap pq) <= fuel)%nat ->
  value (isHeapOrder fuel pq) = Some true ->
  heap_order (heap pq) /\
  forall (r : T), heap pq !! 1%nat = Some r ->
    forall (i : nat) (x : T),
      (2 <= i)%nat -> heap pq !! i = Some x -> less r x = true.
Proof.
  intros Hl Hfuel Htrue. destruct pq as [l]. cbn [heap] in *.
  destruct (returns_isHeapOrder_loop_exact fuel l 1 true)
    as (b & [Hv _] & Hiff); try lia.
  unfold isHeapOrder in Htrue. rewrite Hv in Htrue. injection Htrue as ->.
  destruct (proj1 Hiff eq_refl) as [_ Hall].
  assert (Hstrict : forall i : nat, (1 <= i)%nat -> strict_at l i)
    by (intros i Hi; apply Hall; lia).
  split.
  - intros i x p Hi Hx Hp.
    destruct (Hstrict i ltac:(lia)) as (Hpar & _ & _).
    apply less_asym. apply (Hpar x p); [lia | exact Hx | exact Hp].
  - intros r Hr. apply strict_root_least; assumption.
Qed.

(** X10: over every sequence of [insert] and [removeMin] calls on a fresh
    queue, each [removeMin] on a non-empty queue, nothing is lost and
    nothing is made up: the values inserted are, as a multiset, the values
    returned together with the entries still stored, and the filler slot
    still holds [T()]. *)
Theorem exec_conserves_entries (fuel : nat) (cs : list call) :
  (64 <= fuel)%nat ->
  Z.of_nat (length cs) < PTRDIFF_MAX ->
  nonempty_removals 0 cs = true ->
  exists (outs : list T) (pq' : PriorityQueue),
    returns (exec fuel cs) PriorityQueue_new outs pq' /\
    Permutation (inserted cs) (outs ++ live pq') /\
    length outs = removals cs /\
    heap pq' !! 0%nat = Some T_init.
Proof.
  intros Hf Hmax Hne.
  destruct (exec_sound fuel cs [T_init] 0)
    as (outs & l' & Hrun & _ & _ & Hn & Hh & Hp); auto using heap_order_new.
  { lia. }
  exists outs, (mkPQ l'). unfold live. cbn [heap].
  split; [exact Hrun |]. split; [exact Hp |]. split; [exact Hn |].
  rewrite Hh. reflexivity.
Qed.

Lemma drain_prefix_sorted (fuel : nat) (k : nat) :
  forall (l : list T) (n : nat),
    (64 <= fuel)%nat ->
    length l = S n ->
    (k <= n)%nat ->
    Z.of_nat (S n) <= PTRDIFF_MAX ->
    heap_order l ->
    exists (outs l' : list T),
      returns (exec fuel (repeat RemoveMin k)) (mkPQ l) outs (mkPQ l') /\
      heap_order l' /\
      length outs = k /\
      Permutation (tail l) (outs ++ tail l') /\
      StronglySorted leq outs /\
      Forall (fun x => Forall (leq x) (tail l')) outs.
Proof.
  induction k as [| k IH]; intros l n Hf Hlen Hk Hmax Hord.
  - exists [], l. cbn.
    split; [apply returns_ret |]. split; [exact Hord |].
    split; [reflexivity |]. split; [reflexivity |].
    split; constructor.
  - destruct n as [| n]; [lia |].
    destruct (spec_removeMin_some l ltac:(lia)) as (r & x & Hr & Hx & Hspec).
    set (l1 := spec_siftDown (take (length l - 1) (<[1%nat:=x]> l)) 1) in *.
    pose proof (spec_removeMin_length _ _ _ Hspec) as [Hl1 _].
    pose proof (spec_removeMin_perm _ _ _ Hspec) as Hperm.
    pose proof (spec_removeMin_min _ _ _ Hord Hspec) as [_ Hmin].
    destruct (IH l1 n) as (outs & l' & Hrun & Hord' & Hlo & Hp & Hs & Hrest);
      auto; try lia.
    { eapply spec_removeMin_order; eassumption. }
    rewrite Hperm, Hp in Hmin.
    apply Forall_cons in Hmin as [_ Hmin].
    apply Forall_app in Hmin as [Hmin1 Hmin2].
    exists (r :: outs), l'. cbn [repeat exec].
    split.
    { eapply returns_bind; [apply returns_removeMin; [lia | exact Hf | exact Hspec] |].
      eapply returns_bind; [exact Hrun |]. apply returns_ret. }
    split; [exact Hord' |].
    split; [cbn; lia |].
    split; [rewrite Hperm, Hp; reflexivity |].
    split; constructor; assumption.
Qed.

(** X11: [k] calls of [removeMin] in a row on a queue in heap order that
    holds at least [k] entries return values in non-decreasing order, none
    of them greater than any entry left in the queue, and leave the other
    entries stored in heap order. *)
Theorem removeMin_run_sorted (fuel k : nat) (pq : PriorityQueue) :
  (64 <= fuel)%nat ->
  well_formed pq ->
  heap_order (heap pq) ->
  (k <= length (live pq))%nat ->
  exists (outs : list T) (pq' : PriorityQueue),
    returns (exec fuel (repeat RemoveMin k)) pq outs pq' /\
    length outs = k /\
    StronglySorted leq outs /\
    Forall (fun x => Forall (leq x) (live pq')) outs /\
    Permutation (live pq) (outs ++ live pq') /\
    heap_order (heap pq').
Proof.
  intros Hf Hwf Hord Hk. destruct pq as [l]. unfold well_formed, live in *.
  cbn [heap] in *.
  destruct l as [| s l]; [cbn in Hwf; lia |].
  destruct (drain_prefix_sorted fuel k (s :: l) (length l))
    as (outs & l' & Hrun & Hord' & Hlo & Hp & Hs & Hrest); auto;
    try (cbn [length tail] in *; lia).
  exists outs, (mkPQ l'). cbn [heap]. auto 10.
Qed.

Lemma spec_siftUp_root_kept (k : nat) :
  forall (l : list T) (v r : T),
    (2 <= k)%nat ->
    l !! k = Some v -> l !! 1%nat = Some r -> less v r = false ->
    spec_siftUp l k !! 1%nat = Some r.
Proof.
  induction k as [k IH] using lt_wf_ind. intros l v r Hk Hv Hr Hlt.
  rewrite spec_siftUp_step.
  destruct (Nat.ltb_spec 1 k); [| lia].
  rewrite Hv.
  destruct (l !! (k / 2)%nat) as [p |] eqn:Hp; [| exact Hr].
  destruct (less v p) eqn:Hvp; [| exact Hr].
  destruct (decide ((k / 2)%nat = 1%nat)) as [Heq | Hne].
  - rewrite Heq, Hr in Hp. simplify_eq. congruence.
  - apply (IH (k / 2)%nat) with (v := v); try lia.
    + rewrite (swap_at_lookup _ _ _ _ _ _ Hv Hp).
      rewrite decide_True by reflexivity. reflexivity.
    + rewrite (swap_at_lookup _ _ _ _ _ _ Hv Hp).
      rewrite decide_False by lia. rewrite decide_False by lia. exact Hr.
    + exact Hlt.
Qed.

(** The root after inserting [v] into an array in heap order. *)
Lemma spec_insert_root (v : T) (l : list T) :
  (1 <= length l)%nat ->
  heap_order l ->
  spec_insert v l !! 1%nat =
  Some (match l !! 1%nat with
        | Some r => if less v r then v else r
        | None => v
        end).
Proof.
  intros Hl Hord.
  destruct (l !! 1%nat) as [r |] eqn:Hr.
  - pose proof (lookup_lt_Some _ _ _ Hr) as Hlen.
    destruct (less v r) eqn:Hlt.
    + pose proof (spec_insert_order v l Hord) as Hord'.
      pose proof (spec_insert_live v l Hl) as Hperm.
      pose proof (spec_insert_length v l) as Hlen'.
      destruct (lookup_lt_is_Some_2 (spec_insert v l) 1%nat ltac:(lia))
        as [m Hm].
      rewrite Hm. f_equal.
      assert (Hmin : forall x, In x (tail l ++ [v]) -> less x m = false).
      { intros x Hx. rewrite <- Hperm in Hx.
        apply list_elem_of_In, list_elem_of_lookup_1 in Hx as [i Hi].
        rewrite lookup_tail in Hi.
        apply (heap_order_root_min _ m Hord' Hm (S i)); [lia | exact Hi]. }
      assert (Hin : In m (tail l ++ [v])).
      { rewrite <- Hperm. apply list_elem_of_In.
        apply (list_elem_of_lookup_2 _ 0%nat). rewrite lookup_tail. exact Hm. }
      apply in_app_or in Hin as [Hold | [Hnew | []]]; [| congruence].
      exfalso.
      apply list_elem_of_In, list_elem_of_lookup_1 in Hold as [i Hi].
      rewrite lookup_tail in Hi.
      pose proof (heap_order_root_min l r Hord Hr (S i) m ltac:(lia) Hi) as Hmr.
      pose proof (Hmin v ltac:(apply in_or_app; right; left; reflexivity)) as Hvm.
      pose proof (less_incomp _ _ _ Hvm Hmr). congruence.
    + apply (spec_siftUp_root_kept (length l) (l ++ [v]) v r); try lia.
      * rewrite lookup_app_r, Nat.sub_diag by lia. reflexivity.
      * rewrite lookup_app_l by lia. exact Hr.
      * exact Hlt.
  - apply lookup_ge_None in Hr.
    assert (Hone : length l = 1%nat) by lia.
    destruct l as [| s [| ? ?]]; try discriminate.
    unfold spec_insert. rewrite spec_siftUp_step. reflexivity.
Qed.

(** X12: after [insert(v)] on a queue in heap order, [min] returns [v]
    when the queue was empty or [v] is strictly less than the former
    minimum, and the former minimum otherwise. *)
Theorem min_after_insert (fuel : nat) (pq : PriorityQueue) (v : T) :
  (64 <= fuel)%nat ->
  well_formed pq ->
  Z.of_nat (length (heap pq)) < PTRDIFF_MAX ->
  heap_order (heap pq) ->
  returns (insert fuel v ;; min) pq
    (match heap pq !! 1%nat with
     | Some r => if less v r then v else r
     | None => v
     end)
    (final (insert fuel v pq)).
Proof.
  intros Hf Hwf Hroom Hord. destruct pq as [l]. unfold well_formed in Hwf.
  cbn [heap] in *.
  pose proof (returns_insert fuel v l ltac:(lia) Hf) as Hins.
  destruct Hins as [Hv Hfin]. rewrite Hfin.
  eapply returns_bind; [split; eassumption |].
  apply returns_min. apply spec_insert_root; [lia | exact Hord].
Qed.

(** X13: inserting a value that is strictly less than the minimum of a
    queue in heap order (or any value into an empty queue) and calling
    [removeMin] returns that value and leaves the stored entries as they
    were, in heap order; an empty queue is left exactly as it was. *)
Theorem insert_removeMin_round_trip (fuel : nat) (pq : PriorityQueue) (v : T) :
  (64 <= fuel)%nat ->
  well_formed pq ->
  Z.of_nat (length (heap pq)) < PTRDIFF_MAX ->
  heap_order (heap pq) ->
  (forall r, heap pq !! 1%nat = Some r -> less v r = true) ->
  exists pq' : PriorityQueue,
    returns (insert fuel v ;; removeMin fuel) pq v pq' /\
    Permutation (live pq') (live pq) /\
    heap_order (heap pq') /\
    (live pq = [] -> pq' = pq).
Proof.
  intros Hf Hwf Hroom Hord Hless. destruct pq as [l].
  unfold well_formed, live in *. cbn [heap] in *.
  pose proof (returns_insert fuel v l ltac:(lia) Hf) as Hins.
  pose proof (spec_insert_length v l) as Hlen.
  pose proof (spec_insert_root v l ltac:(lia) Hord) as Hroot.
  assert (Hrootv : spec_insert v l !! 1%nat = Some v).
  { rewrite Hroot. destruct (l !! 1%nat) as [r |] eqn:Hr; [| reflexivity].
    rewrite (Hless r eq_refl). reflexivity. }
  destruct (spec_removeMin_some (spec_insert v l) ltac:(lia))
    as (r & x & Hr & Hx & Hspec).
  rewrite Hrootv in Hr. injection Hr as <-.
  set (l' := spec_siftDown _ 1) in Hspec.
  exists (mkPQ l'). cbn [heap].
  split; [| split; [| split]].
  - eapply returns_bind; [exact Hins |].
    apply returns_removeMin; [lia | exact Hf | exact Hspec].
  - pose proof (spec_removeMin_perm _ _ _ Hspec) as Hp.
    rewrite spec_insert_live in Hp by lia.
    rewrite <- Permutation_cons_append in Hp.
    apply Permutation_cons_inv in Hp. symmetry. exact Hp.
  - eapply spec_removeMin_order; [| exact Hspec].
    apply spec_insert_order, Hord.
  - intros Hempty. destruct l as [| s [| ? ?]]; try discriminate.
    assert (Hsv : spec_insert v [s] = [s; v])
      by (unfold spec_insert; rewrite spec_siftUp_step; reflexivity).
    assert (Hl' : l' = [s]).
    { unfold l'. rewrite Hsv. rewrite spec_siftDown_step. reflexivity. }
    rewrite Hl'. reflexivity.
Qed.

(** X14: the loops are logarithmic: [removeMin] on a queue of at most
    [2 ^ f] entries ([f >= 1]) ends within [f] evaluations of its loop
    condition, and [insert] into a queue of fewer than [2 ^ f - 1] entries
    ends within [f] evaluations of its own. *)
Theorem loops_end_within_log (f : nat) (pq : PriorityQueue) (v : T) :
  well_formed pq ->
  (1 <= f)%nat ->
  (live pq <> [] ->
   Z.of_nat (length (live pq)) <= 2 ^ Z.of_nat f ->
   exists r, value (removeMin f pq) = Some r) /\
  (Z.of_nat (length (heap pq)) < PTRDIFF_MAX ->
   Z.of_nat (length (live pq)) + 1 < 2 ^ Z.of_nat f ->
   value (insert f v pq) = Some tt).
Proof.
  intros Hwf Hf. destruct pq as [l]. unfold well_formed, live in *.
  cbn [heap] in *.
  destruct l as [| s l]; [cbn in Hwf; lia |].
  cbn [tail length] in *. split.
  - intros Hlive Hpow.
    assert (Hlen : (2 <= length (s :: l))%nat)
      by (destruct l; [congruence | cbn; lia]).
    destruct (spec_removeMin_some (s :: l) Hlen) as (r & x & Hr & Hx & Hspec).
    exists r.
    eapply returns_removeMin_fuel; [| exact Hf | | exact Hspec];
      cbn [length] in *; lia.
  - intros Hroom Hpow.
    apply (returns_insert_fuel f v (s :: l)); cbn [length]; lia.
Qed.

(** ** The driver's sort *)

Lemma sort_insert_perm (x : T) (v : list T) :
  Permutation (sort_insert x v) (x :: v).
Proof.
  induction v as [| y v IH]; cbn; [reflexivity |].
  destruct (less y x); [| reflexivity].
  rewrite IH. apply perm_swap.
Qed.

Lemma std_sort_perm (v : list T) : Permutation (std_sort v) v.
Proof.
  induction v as [| x v IH]; cbn; [reflexivity |].
  rewrite sort_insert_perm. apply perm_skip. exact IH.
Qed.

Lemma sort_insert_sorted (x : T) (v : list T) :
  StronglySorted leq v -> StronglySorted leq (sort_insert x v).
Proof.
  induction v as [| y v IH]; intros Hs; cbn.
  - repeat constructor.
  - apply StronglySorted_inv in Hs as [Hs Hy].
    destruct (less y x) eqn:Hlt.
    + constructor; [apply IH, Hs |].
      rewrite sort_insert_perm. constructor; [| exact Hy].
      apply less_asym. exact Hlt.
    + constructor; [constructor; assumption |].
      constructor; [exact Hlt |].
      eapply Forall_impl; [exact Hy |].
      intros z Hz. unfold leq in *. eapply less_incomp; eassumption.
Qed.

Lemma std_sort_sorted (v : list T) : StronglySorted leq (std_sort v).
Proof.
  induction v as [| x v IH]; cbn; [constructor |].
  apply sort_insert_sorted, IH.
Qed.

(** ** The driver's assertions *)

Lemma NoDup_pairwise_distinct (l : list T) :
  (forall a b : T, less a b = false -> less b a = false -> a = b) ->
  NoDup l -> pairwise_distinct l.
Proof.
  intros Htotal Hnd i j x y Hij Hx Hy.
  destruct (less x y) eqn:Hxy; [auto |].
  destruct (less y x) eqn:Hyx; [auto |].
  exfalso. apply Hij.
  rewrite (Htotal x y Hxy Hyx) in Hx.
  eapply NoDup_lookup; eassumption.
Qed.

Lemma isHeapOrder_of_NoDup (fuel : nat) (l : list T) :
  (forall a b : T, less a b = false -> less b a = false -> a = b) ->
  1 <= Z.of_nat (length l) < 2 ^ 32 ->
  (length l <= fuel)%nat ->
  heap_order l -> NoDup (tail l) ->
  forall b : bool, returns (isHeapOrder fuel) (mkPQ l) b (mkPQ l) -> b = true.
Proof.
  intros Htotal Hl Hfuel Hord Hnd b [Hb _].
  pose proof (strict_of_distinct l Hord
                (NoDup_pairwise_distinct _ Htotal Hnd)) as Hstrict.
  destruct (returns_isHeapOrder_loop fuel l 1) as [Hv _]; try lia.
  { intros j Hj. apply Hstrict. lia. }
  unfold isHeapOrder in Hb. congruence.
Qed.

Lemma main_fill_result (fuel : nat) (rand : nat -> T) (n : nat) :
  forall (i : nat) (v l : list T),
    (forall a b : T, less a b = false -> less b a = false -> a = b) ->
    (64 <= fuel)%nat ->
    (length l + n <= fuel)%nat ->
    Z.of_nat (length l + n) < 2 ^ 32 ->
    (1 <= length l)%nat ->
    heap_order l ->
    exists (r : option (list T)) (l' : list T),
      returns (main_fill fuel rand i n v) (mkPQ l) r (mkPQ l') /\
      (forall v', r = Some v' ->
         v' = v ++ map rand (seq i n) /\
         heap_order l' /\
         Permutation (tail l') (tail l ++ map rand (seq i n)) /\
         length l' = (length l + n)%nat) /\
      (NoDup (tail l ++ map rand (seq i n)) -> r <> None).
Proof.
  induction n as [| n IH]; intros i v l Htotal Hf Hfuel Hmax Hlen Hord.
  - exists (Some v), l. cbn. rewrite !app_nil_r.
    split; [apply returns_ret |]. split; [| congruence].
    intros v' Hv'. injection Hv' as <-. repeat split; auto.
  - cbn [main_fill].
    pose proof (returns_insert fuel (rand i) l
                  ltac:(pow_consts; lia) Hf) as Hins.
    pose proof (spec_insert_length (rand i) l) as Hlen1.
    pose proof (spec_insert_order (rand i) l Hord) as Hord1.
    pose proof (spec_insert_live (rand i) l Hlen) as Hperm1.
    set (l1 := spec_insert (rand i) l) in *.
    destruct (returns_isHeapOrder_loop_exact fuel l1 1 true)
      as (b & Hchk & Hiff); try lia.
    destruct b.
    + destruct (IH (S i) (v ++ [rand i]) l1) as (r & l' & Hrun & Hsome & Hnone);
        auto; try lia.
      exists r, l'. split; [| split].
      * eapply returns_bind; [exact Hins |].
        eapply returns_bind; [exact Hchk |]. exact Hrun.
      * intros v' Hv'. destruct (Hsome v' Hv') as (-> & Ho & Hp & Hl).
        cbn [seq map]. rewrite <- app_assoc. cbn [app].
        split; [reflexivity |]. split; [exact Ho |]. split; [| lia].
        rewrite Hp, Hperm1, <- app_assoc. reflexivity.
      * intros Hnd. apply Hnone.
        rewrite Hperm1, <- app_assoc. exact Hnd.
    + exists None, l1. split; [| split].
      * eapply returns_bind; [exact Hins |].
        eapply returns_bind; [exact Hchk |]. apply returns_ret.
      * discriminate.
      * intros Hnd. exfalso.
        cbn [seq map] in Hnd.
        change (rand i :: map rand (seq (S i) n))
          with ([rand i] ++ map rand (seq (S i) n)) in Hnd.
        rewrite app_assoc in Hnd. apply NoDup_app in Hnd as (Hnd & _ & _).
        rewrite <- Hperm1 in Hnd.
        pose proof (isHeapOrder_of_NoDup fuel l1 Htotal ltac:(lia) ltac:(lia)
                      Hord1 Hnd false Hchk).
        discriminate.
Qed.

Lemma main_drain_result (equal : T -> T -> bool) (fuel : nat) :
  forall (v l : list T),
    (forall a b : T, equal a b = true <-> a = b) ->
    (forall a b : T, less a b = false -> less b a = false -> a = b) ->
    (64 <= fuel)%nat ->
    (length l <= fuel)%nat ->
    Z.of_nat (length l) < 2 ^ 32 ->
    (1 <= length l)%nat ->
    heap_order l ->
    Permutation (tail l) v ->
    StronglySorted leq v ->
    exists (b : bool) (l' : list T),
      returns (main_drain equal fuel v) (mkPQ l) b (mkPQ l') /\
      (b = true <-> NoDup v).
Proof.
  induction v as [| x v IH];
    intros l Heq Htotal Hf Hfuel Hmax Hlen Hord Hperm Hsorted.
  - exists true, l. split; [apply returns_ret |].
    split; [intros _; constructor | reflexivity].
  - cbn [main_drain].
    destruct (returns_isHeapOrder_loop_exact fuel l 1 true)
      as (b1 & Hchk & Hiff); try lia.
    destruct b1.
    + destruct (proj1 Hiff eq_refl) as [_ Hall].
      assert (Hstrict : forall i : nat, (1 <= i)%nat -> strict_at l i)
        by (intros i Hi; apply Hall; lia).
      assert (Hlen2 : (2 <= length l)%nat).
      { apply Permutation_length in Hperm. destruct l as [| ? [| ? ?]];
          cbn in *; lia. }
      destruct (spec_removeMin_some l Hlen2) as (r & y & Hr & Hy & Hspec).
      set (l1 := spec_siftDown _ 1) in Hspec.
      pose proof (spec_removeMin_perm _ _ _ Hspec) as Hp1.
      pose proof (spec_removeMin_min _ _ _ Hord Hspec) as [_ Hmin].
      pose proof (spec_removeMin_length _ _ _ Hspec) as [Hl1 Hl1'].
      apply StronglySorted_inv in Hsorted as [Hsorted Hx].
      assert (Hrx : r = x).
      { apply Htotal.
        - assert (Hin : In r (x :: v)).
          { rewrite <- Hperm.
            destruct l as [| s [| r' rest]]; try discriminate.
            cbn in Hr. injection Hr as ->. left. reflexivity. }
          destruct Hin as [-> | Hin]; [apply less_irrefl |].
          rewrite Forall_forall in Hx. apply list_elem_of_In in Hin.
          exact (Hx r Hin).
        - rewrite Forall_forall in Hmin. apply Hmin.
          rewrite Hperm. left. }
      subst r.
      assert (Htl : tail l = x :: tail (tail l)).
      { clear -Hr. destruct l as [| s [| r' rest]]; try discriminate.
        cbn in Hr. injection Hr as ->. reflexivity. }
      assert (Hperm' : Permutation (tail l1) v).
      { rewrite Hperm in Hp1. apply Permutation_cons_inv in Hp1.
        symmetry. exact Hp1. }
      destruct (IH l1) as (b & l' & Hrun & Hb); auto; try lia.
      { eapply spec_removeMin_order; eassumption. }
      exists b, l'. split.
      * eapply returns_bind; [exact Hchk |].
        eapply returns_bind;
          [apply returns_removeMin; [pow_consts; lia | exact Hf | exact Hspec] |].
        rewrite (proj2 (Heq x x) eq_refl). exact Hrun.
      * rewrite Hb, NoDup_cons. split; [| tauto].
        intros Hnd. split; [| exact Hnd].
        intros Hin.
        assert (Hrest : Permutation (tail (tail l)) v).
        { rewrite Htl in Hperm. apply Permutation_cons_inv in Hperm.
          exact Hperm. }
        rewrite <- Hrest in Hin.
        apply list_elem_of_lookup_1 in Hin as [i Hi].
        rewrite !lookup_tail in Hi.
        pose proof (strict_root_least l x Hstrict Hr (S (S i)) x
                      ltac:(lia) Hi) as Hlt.
        rewrite less_irrefl in Hlt. discriminate.
    + exists false, l. split.
      * eapply returns_bind; [exact Hchk |]. apply returns_ret.
      * split; [discriminate |]. intros Hnd.
        rewrite <- Hperm in Hnd.
        eapply (isHeapOrder_of_NoDup fuel l); try eassumption; lia.
Qed.

(** The verdict of the driver over an element type whose order is total
    and whose [==] is equality. *)
Lemma main_verdict (equal : T -> T -> bool) (fuel : nat) (rand : nat -> T) :
  (forall a b : T, equal a b = true <-> a = b) ->
  (forall a b : T, less a b = false -> less b a = false -> a = b) ->
  (257 <= fuel)%nat ->
  exists b : bool,
    value (main equal fuel rand PriorityQueue_new) = Some b /\
    (b = true <-> NoDup (map rand (seq 0 256))).
Proof.
  intros Heq Htotal Hf. unfold main, PriorityQueue_new.
  destruct (main_fill_result fuel rand 256 0 [] [T_init])
    as (r & l' & Hfill & Hsome & Hnone); auto using heap_order_new;
    try (cbn [length]; pow_consts; lia).
  cbn [tail app] in Hsome, Hnone.
  destruct r as [v |].
  - destruct (Hsome v eq_refl) as (-> & Hord & Hperm & Hlen).
    cbn [length] in Hlen. cbn [app] in *.
    destruct (main_drain_result equal fuel
                (std_sort (map rand (seq 0 256))) l')
      as (b & l'' & Hrun & Hb); auto; try lia;
      try (pow_consts; lia).
    { rewrite std_sort_perm. exact Hperm. }
    { apply std_sort_sorted. }
    exists b. split.
    + eapply returns_bind; [exact Hfill |]. exact Hrun.
    + rewrite Hb, std_sort_perm. reflexivity.
  - exists false. split.
    + eapply returns_bind; [exact Hfill |]. apply returns_ret.
    + split; [discriminate |]. intros Hnd. exfalso.
      apply (Hnone Hnd). reflexivity.
Qed.

End PriorityQueue.

(** X15: the test driver's assertions all hold exactly when the [0x100]
    values that [rand()] returned are pairwise different: with a repeated
    value an [assert] fails, though the queue works as it should. *)
Theorem main_passes_iff_distinct (stale : Z -> Z) (fuel : nat)
    (rand : nat -> Z) :
  (257 <= fuel)%nat ->
  exists b : bool,
    value (main stale Z.eqb fuel rand PriorityQueue_new) = Some b /\
    (b = true <-> NoDup (map rand (seq 0 256))).
Proof.
  intros Hf. apply main_verdict; [apply Z.eqb_eq | | exact Hf].
  intros a b Hab Hba. cbn [less Less_int] in *.
  apply Z.ltb_ge in Hab, Hba. lia.
Qed.


(** ** The claims on [PriorityQueue<int>]

    The test driver stores [int]; the statements below instantiate the
    theorems there, with out-of-range reads yielding 7 ([stale7]). *)

Lemma insert_all_then_removeMin_sorts_witness :
  (64 <= 64)%nat /\
  Z.of_nat (length [5; 3; 8; 1; 9; 2]) < PTRDIFF_MAX /\
  exists outs : list Z,
    value (exec stale7 64
             (map Insert [5; 3; 8; 1; 9; 2]
              ++ repeat RemoveMin (length [5; 3; 8; 1; 9; 2]))
             PriorityQueue_new) = Some outs /\
    Permutation outs [5; 3; 8; 1; 9; 2] /\
    StronglySorted leq outs.
Proof.
  assert (H1 : (64 <= 64)%nat) by lia.
  assert (H2 : Z.of_nat (length [5; 3; 8; 1; 9; 2]) < PTRDIFF_MAX)
    by reflexivity.
  split; [exact H1 |]. split; [exact H2 |].
  apply (insert_all_then_removeMin_sorts stale7 64 [5; 3; 8; 1; 9; 2] H1 H2).
Defined.

Lemma heap_order_after_each_call_witness :
  (64 <= 64)%nat /\
  Z.of_nat (length [Insert 5; Insert 3; RemoveMin; Insert 8; RemoveMin])
    < PTRDIFF_MAX /\
  nonempty_removals 0 [Insert 5; Insert 3; RemoveMin; Insert 8; RemoveMin]
    = true /\
  exists (outs : list Z) (pq' : PriorityQueue),
    value (exec stale7 64
             (take 3 [Insert 5; Insert 3; RemoveMin; Insert 8; RemoveMin])
             PriorityQueue_new) = Some outs /\
    final (exec stale7 64
             (take 3 [Insert 5; Insert 3; RemoveMin; Insert 8; RemoveMin])
             PriorityQueue_new) = pq' /\
    heap_order (heap pq').
Proof.
  assert (H1 : (64 <= 64)%nat) by lia.
  split; [exact H1 |]. split; [reflexivity |]. split; [reflexivity |].
  apply (heap_order_after_each_call stale7 64
           [Insert 5; Insert 3; RemoveMin; Insert 8; RemoveMin] 3 H1);
    reflexivity.
Defined.

Lemma size_accounting_witness :
  (64 <= 64)%nat /\
  Z.of_nat (length [Insert 5; Insert 3; RemoveMin; Insert 8; RemoveMin])
    < PTRDIFF_MAX /\
  nonempty_removals 0 [Insert 5; Insert 3; RemoveMin; Insert 8; RemoveMin]
    = true /\
  value (size (@PriorityQueue_new Z _)) = Some 0 /\
  exists (outs : list Z) (pq' : PriorityQueue),
    value (exec stale7 64
             [Insert 5; Insert 3; RemoveMin; Insert 8; RemoveMin]
             PriorityQueue_new) = Some outs /\
    final (exec stale7 64
             [Insert 5; Insert 3; RemoveMin; Insert 8; RemoveMin]
             PriorityQueue_new) = pq' /\
    (removals [Insert 5; Insert 3; RemoveMin; Insert 8; RemoveMin]
     <= inserts [Insert 5; Insert 3; RemoveMin; Insert 8; RemoveMin])%nat /\
    value (size pq') =
    Some (Z.of_nat (inserts [Insert 5; Insert 3; RemoveMin; Insert 8; RemoveMin])
          - Z.of_nat (removals [Insert 5; Insert 3; RemoveMin; Insert 8; RemoveMin])).
Proof.
  assert (H1 : (64 <= 64)%nat) by lia.
  split; [exact H1 |]. split; [reflexivity |]. split; [reflexivity |].
  apply (size_accounting stale7 64
           [Insert 5; Insert 3; RemoveMin; Insert 8; RemoveMin] H1);
    reflexivity.
Defined.

Lemma min_returns_minimum_witness :
  (64 <= 64)%nat /\
  Z.of_nat (length [Insert 5; Insert 3; Insert 8; RemoveMin]) < PTRDIFF_MAX /\
  nonempty_removals 0 [Insert 5; Insert 3; Insert 8; RemoveMin] = true /\
  returns (exec stale7 64 [Insert 5; Insert 3; Insert 8; RemoveMin])
    PriorityQueue_new [3] (mkPQ [0; 5; 8]) /\
  live (mkPQ [0; 5; 8]) <> [] /\
  exists r : Z,
    heap (mkPQ [0; 5; 8]) !! 1%nat = Some r /\
    In r (live (mkPQ [0; 5; 8])) /\
    Forall (leq r) (live (mkPQ [0; 5; 8])) /\
    value (min stale7 (mkPQ [0; 5; 8])) = Some r /\
    final (min stale7 (mkPQ [0; 5; 8])) = mkPQ [0; 5; 8] /\
    returns (bind (min stale7) (fun a => bind (min stale7) (fun b => ret (a, b))))
      (mkPQ [0; 5; 8]) (r, r) (mkPQ [0; 5; 8]) /\
    value (size (final (min stale7 (mkPQ [0; 5; 8])))) =
    value (size (mkPQ [0; 5; 8])).
Proof.
  assert (H1 : (64 <= 64)%nat) by lia.
  assert (H4 : returns (exec stale7 64 [Insert 5; Insert 3; Insert 8; RemoveMin])
                 PriorityQueue_new [3] (mkPQ [0; 5; 8]))
    by (split; reflexivity).
  assert (H5 : live (mkPQ [0; 5; 8]) <> []) by discriminate.
  split; [exact H1 |]. split; [reflexivity |]. split; [reflexivity |].
  split; [exact H4 |]. split; [exact H5 |].
  apply (min_returns_minimum stale7 64 [Insert 5; Insert 3; Insert 8; RemoveMin]
           [3] (mkPQ [0; 5; 8]) H1 eq_refl eq_refl H4 H5).
Defined.

Lemma insert_removeMin_multiset_witness :
  (64 <= 64)%nat /\
  well_formed (mkPQ [0; 3; 5; 8]) /\
  value (insert stale7 64 1 (mkPQ [0; 3; 5; 8])) = Some tt /\
  Permutation (live (final (insert stale7 64 1 (mkPQ [0; 3; 5; 8]))))
    (1 :: live (mkPQ [0; 3; 5; 8])) /\
  heap (final (insert stale7 64 1 (mkPQ [0; 3; 5; 8]))) !! 0%nat = Some 0 /\
  exists r : Z,
    value (removeMin stale7 64 (mkPQ [0; 3; 5; 8])) = Some r /\
    Permutation (live (mkPQ [0; 3; 5; 8]))
      (r :: live (final (removeMin stale7 64 (mkPQ [0; 3; 5; 8])))) /\
    heap (final (removeMin stale7 64 (mkPQ [0; 3; 5; 8]))) !! 0%nat = Some 0.
Proof.
  assert (H1 : (64 <= 64)%nat) by lia.
  assert (H2 : well_formed (mkPQ [0; 3; 5; 8])) by (split; discriminate).
  split; [exact H1 |]. split; [exact H2 |].
  destruct (insert_removeMin_multiset stale7 64 (mkPQ [0; 3; 5; 8]) 1 H1 H2)
    as [Hins Hrem].
  destruct (Hins eq_refl) as (Hi1 & Hi2 & Hi3).
  split; [exact Hi1 |]. split; [exact Hi2 |]. split; [exact Hi3 |].
  apply Hrem. discriminate.
Defined.

Lemma removeMin_refines_spec_witness :
  (64 <= 64)%nat /\
  well_formed (mkPQ [0; 1; 3; 2; 5; 9; 8]) /\
  live (mkPQ [0; 1; 3; 2; 5; 9; 8]) <> [] /\
  exists (r : Z) (l' : list Z),
    spec_removeMin (heap (mkPQ [0; 1; 3; 2; 5; 9; 8])) = Some (r, l') /\
    heap (mkPQ [0; 1; 3; 2; 5; 9; 8]) !! 1%nat = Some r /\
    value (removeMin stale7 64 (mkPQ [0; 1; 3; 2; 5; 9; 8])) = Some r /\
    final (removeMin stale7 64 (mkPQ [0; 1; 3; 2; 5; 9; 8])) = mkPQ l' /\
    length l' = (length (heap (mkPQ [0; 1; 3; 2; 5; 9; 8])) - 1)%nat /\
    (forall pos : Z,
       1 <= pos <= PTRDIFF_MAX ->
       value (minChild stale7 pos (mkPQ [0; 1; 3; 2; 5; 9; 8]))
       = Some (Z.of_nat (spec_minChild (heap (mkPQ [0; 1; 3; 2; 5; 9; 8]))
                           (Z.to_nat pos)))).
Proof.
  assert (H1 : (64 <= 64)%nat) by lia.
  assert (H2 : well_formed (mkPQ [0; 1; 3; 2; 5; 9; 8])) by (split; discriminate).
  assert (H3 : live (mkPQ [0; 1; 3; 2; 5; 9; 8]) <> []) by discriminate.
  split; [exact H1 |]. split; [exact H2 |]. split; [exact H3 |].
  apply (removeMin_refines_spec stale7 64 (mkPQ [0; 1; 3; 2; 5; 9; 8]) H1 H2 H3).
Defined.

Lemma insert_refines_spec_witness :
  (64 <= 64)%nat /\
  well_formed (mkPQ [0; 3; 5]) /\
  Z.of_nat (length (heap (mkPQ [0; 3; 5]))) < PTRDIFF_MAX /\
  value (insert stale7 64 1 (mkPQ [0; 3; 5])) = Some tt /\
  final (insert stale7 64 1 (mkPQ [0; 3; 5])) =
    mkPQ (spec_insert 1 (heap (mkPQ [0; 3; 5]))) /\
  (forall p : Z,
     heap (mkPQ [0; 3; 5]) !! (length (heap (mkPQ [0; 3; 5])) / 2)%nat = Some p ->
     less 1 p = false ->
     final (insert stale7 64 1 (mkPQ [0; 3; 5])) = mkPQ (heap (mkPQ [0; 3; 5]) ++ [1])).
Proof.
  assert (H1 : (64 <= 64)%nat) by lia.
  assert (H2 : well_formed (mkPQ [0; 3; 5])) by (split; discriminate).
  split; [exact H1 |]. split; [exact H2 |]. split; [reflexivity |].
  apply (insert_refines_spec stale7 64 (mkPQ [0; 3; 5]) 1 H1 H2 eq_refl).
Defined.

Lemma empty_queue_calls_read_past_end_witness :
  well_formed (@PriorityQueue_new Z _) /\
  value (size (@PriorityQueue_new Z _)) = Some 0 /\
  value (min stale7 PriorityQueue_new) = Some (stale7 1) /\
  final (min stale7 PriorityQueue_new) = PriorityQueue_new /\
  accesses (min stale7 PriorityQueue_new) = [Access false 1 1] /\
  in_range (Access false 1 1) = false /\
  exists rest : list access,
    accesses (removeMin stale7 64 PriorityQueue_new) = Access false 1 1 :: rest.
Proof.
  assert (H1 : well_formed (@PriorityQueue_new Z _)) by (split; discriminate).
  split; [exact H1 |]. split; [reflexivity |].
  apply (empty_queue_calls_read_past_end stale7 64 PriorityQueue_new H1 eq_refl).
Defined.

(** On an empty [PriorityQueue<int>] both calls return a value, the one
    lying past the end of the vector, and [removeMin] pops the filler
    slot, after which [size()] is [SIZE_MAX]. *)
Lemma empty_queue_calls_return_counterexample :
  value (size (@PriorityQueue_new Z _)) = Some 0 /\
  value (min stale7 PriorityQueue_new) = Some 7 /\
  value (removeMin stale7 64 PriorityQueue_new) = Some 7 /\
  final (removeMin stale7 64 PriorityQueue_new) = mkPQ [] /\
  final (removeMin stale7 64 PriorityQueue_new) <> PriorityQueue_new /\
  value (size (final (removeMin stale7 64 PriorityQueue_new))) =
    Some (2 ^ 64 - 1).
Proof.
  repeat split; try reflexivity. discriminate.
Qed.

Lemma pairwise_distinct_358 : pairwise_distinct [3; 5; 8].
Proof.
  intros i j x y Hij Hx Hy.
  destruct i as [| [| [| i]]], j as [| [| [| j]]];
    cbn in Hx, Hy; try discriminate; try congruence;
    injection Hx as <-; injection Hy as <-; cbn; auto.
Defined.

Lemma strict_order_when_distinct_witness :
  (64 <= 64)%nat /\
  Z.of_nat (length [Insert 5; Insert 3; Insert 8]) < 2 ^ 32 - 1 /\
  nonempty_removals 0 [Insert 5; Insert 3; Insert 8] = true /\
  returns (exec stale7 64 [Insert 5; Insert 3; Insert 8])
    PriorityQueue_new [] (mkPQ [0; 3; 5; 8]) /\
  heap_order (heap (mkPQ [0; 3; 5; 8])) /\
  (forall i : nat, (1 <= i)%nat -> strict_at (heap (mkPQ [0; 3; 5; 8])) i) /\
  value (isHeapOrder stale7 4 (mkPQ [0; 3; 5; 8])) = Some true.
Proof.
  assert (H1 : (64 <= 64)%nat) by lia.
  assert (H4 : returns (exec stale7 64 [Insert 5; Insert 3; Insert 8])
                 PriorityQueue_new [] (mkPQ [0; 3; 5; 8]))
    by (split; reflexivity).
  split; [exact H1 |]. split; [reflexivity |]. split; [reflexivity |].
  split; [exact H4 |].
  destruct (strict_order_when_distinct stale7 64 4
              [Insert 5; Insert 3; Insert 8] [] (mkPQ [0; 3; 5; 8])
              H1 eq_refl eq_refl H4) as [Hord Hstrict].
  split; [exact Hord |].
  destruct (Hstrict pairwise_distinct_358) as [Hs Hchk].
  split; [exact Hs |]. apply Hchk. cbn. lia.
Defined.

(** After [insert(1); insert(1)] on a [PriorityQueue<int>] the root and
    its left child hold equal entries: the strict relation fails at
    position 1 and [isHeapOrder] returns [false]. *)
Lemma strict_order_duplicates_counterexample :
  nonempty_removals 0 [Insert 1; Insert 1] = true /\
  final (exec stale7 64 [Insert 1; Insert 1] PriorityQueue_new)
    = mkPQ [0; 1; 1] /\
  ~ strict_at [0; 1; 1] 1 /\
  value (isHeapOrder stale7 64 (mkPQ [0; 1; 1])) = Some false.
Proof.
  split; [reflexivity |]. split; [reflexivity |]. split; [| reflexivity].
  intros (_ & Hleft & _). specialize (Hleft 1 1 eq_refl eq_refl). discriminate.
Qed.

(** ** The scenarios of the specification *)

Example scenario_six_entries :
  value (exec stale7 64
           (map Insert [5; 3; 8; 1; 9; 2] ++ repeat RemoveMin 6)
           PriorityQueue_new)
  = Some [1; 2; 3; 5; 8; 9].
Proof. reflexivity. Qed.

Example scenario_single_entry :
  let pq1 := final (insert stale7 64 42 PriorityQueue_new) in
  let pq2 := final (removeMin stale7 64 pq1) in
  value (min stale7 pq1) = Some 42 /\
  value (size pq1) = Some 1 /\
  value (removeMin stale7 64 pq1) = Some 42 /\
  value (size pq2) = Some 0 /\
  pq2 = PriorityQueue_new.
Proof. repeat split; reflexivity. Qed.

(** ** The further properties on [PriorityQueue<int>] *)

Lemma heap_order_0132 : heap_order [0; 1; 3; 2].
Proof.
  intros i x p Hi Hx Hp.
  do 4 (destruct i as [| i];
        [cbn in Hx, Hp; try lia; simplify_eq; reflexivity |]).
  discriminate.
Defined.

Lemma parent_of_children_witness :
  0 <= 5 < 2 ^ 64 /\
  ((parent (leftChild 5) = 5 /\ parent (rightChild 5) = 5
    /\ rightChild 5 = leftChild 5 + 1)
   <-> 5 <= PTRDIFF_MAX).
Proof.
  assert (H1 : 0 <= 5 < 2 ^ 64) by (split; [discriminate | reflexivity]).
  split; [exact H1 |]. apply (parent_of_children 5 H1).
Defined.

Lemma child_bounds_checks_witness :
  well_formed (mkPQ [0; 1; 3; 2]) /\
  0 <= 1 <= PTRDIFF_MAX /\
  exists lb rb : bool,
    returns (leftInBounds 1) (mkPQ [0; 1; 3; 2]) lb (mkPQ [0; 1; 3; 2]) /\
    returns (rightInBounds 1) (mkPQ [0; 1; 3; 2]) rb (mkPQ [0; 1; 3; 2]) /\
    (lb = true <-> is_Some (heap (mkPQ [0; 1; 3; 2]) !! Z.to_nat (leftChild 1))) /\
    (rb = true <-> is_Some (heap (mkPQ [0; 1; 3; 2]) !! Z.to_nat (rightChild 1))) /\
    (rb = true -> lb = true).
Proof.
  assert (H1 : well_formed (mkPQ [0; 1; 3; 2])) by (split; discriminate).
  assert (H2 : 0 <= 1 <= PTRDIFF_MAX) by (split; discriminate).
  split; [exact H1 |]. split; [exact H2 |].
  apply (child_bounds_checks (mkPQ [0; 1; 3; 2]) 1 H1 H2).
Defined.

Lemma minChild_result_witness :
  well_formed (mkPQ [0; 1; 3; 2]) /\
  1 <= 1 <= PTRDIFF_MAX /\
  exists m : Z,
    returns (minChild stale7 1) (mkPQ [0; 1; 3; 2]) m (mkPQ [0; 1; 3; 2]) /\
    in_bounds_run (minChild stale7 1) (mkPQ [0; 1; 3; 2]) /\
    ((m = 1 /\ heap (mkPQ [0; 1; 3; 2]) !! Z.to_nat (2 * 1) = None) \/
     ((m = 2 * 1 \/ m = 2 * 1 + 1) /\
      exists a : Z,
        heap (mkPQ [0; 1; 3; 2]) !! Z.to_nat m = Some a /\
        forall (c : Z) (x : Z),
          c = 2 * 1 \/ c = 2 * 1 + 1 ->
          heap (mkPQ [0; 1; 3; 2]) !! Z.to_nat c = Some x -> less x a = false)).
Proof.
  assert (H1 : well_formed (mkPQ [0; 1; 3; 2])) by (split; discriminate).
  assert (H2 : 1 <= 1 <= PTRDIFF_MAX) by (split; discriminate).
  split; [exact H1 |]. split; [exact H2 |].
  apply (minChild_result stale7 (mkPQ [0; 1; 3; 2]) 1 H1 H2).
Defined.

Lemma swap_exchanges_witness :
  0 <= 1 < Z.of_nat (length (heap (mkPQ [0; 1; 3; 2]))) /\
  0 <= 3 < Z.of_nat (length (heap (mkPQ [0; 1; 3; 2]))) /\
  exists pq' : PriorityQueue,
    returns (swap stale7 1 3) (mkPQ [0; 1; 3; 2]) tt pq' /\
    heap pq' !! Z.to_nat 1 = heap (mkPQ [0; 1; 3; 2]) !! Z.to_nat 3 /\
    heap pq' !! Z.to_nat 3 = heap (mkPQ [0; 1; 3; 2]) !! Z.to_nat 1 /\
    (forall k : nat, k <> Z.to_nat 1 -> k <> Z.to_nat 3 ->
       heap pq' !! k = heap (mkPQ [0; 1; 3; 2]) !! k) /\
    returns (swap stale7 1 3) pq' tt (mkPQ [0; 1; 3; 2]).
Proof.
  assert (H1 : 0 <= 1 < Z.of_nat (length (heap (mkPQ [0; 1; 3; 2]))))
    by (split; [discriminate | reflexivity]).
  assert (H2 : 0 <= 3 < Z.of_nat (length (heap (mkPQ [0; 1; 3; 2]))))
    by (split; [discriminate | reflexivity]).
  split; [exact H1 |]. split; [exact H2 |].
  apply (swap_exchanges stale7 (mkPQ [0; 1; 3; 2]) 1 3 H1 H2).
Defined.

Lemma insert_in_bounds_witness :
  well_formed (mkPQ [0; 1; 3; 2]) /\
  Z.of_nat (length (heap (mkPQ [0; 1; 3; 2]))) < PTRDIFF_MAX /\
  in_bounds_run (insert stale7 64 0) (mkPQ [0; 1; 3; 2]).
Proof.
  assert (H1 : well_formed (mkPQ [0; 1; 3; 2])) by (split; discriminate).
  split; [exact H1 |]. split; [reflexivity |].
  apply (insert_in_bounds stale7 64 0 (mkPQ [0; 1; 3; 2]) H1 eq_refl).
Defined.

Lemma removeMin_in_bounds_witness :
  well_formed (mkPQ [0; 1; 3; 2]) /\
  (2 <= length (live (mkPQ [0; 1; 3; 2])))%nat /\
  in_bounds_run (removeMin stale7 64) (mkPQ [0; 1; 3; 2]).
Proof.
  assert (H1 : well_formed (mkPQ [0; 1; 3; 2])) by (split; discriminate).
  assert (H2 : (2 <= length (live (mkPQ [0; 1; 3; 2])))%nat) by (cbn; lia).
  split; [exact H1 |]. split; [exact H2 |].
  apply (removeMin_in_bounds stale7 64 (mkPQ [0; 1; 3; 2]) H1 H2).
Defined.

Lemma size_counts_entries_witness :
  Z.of_nat (length (heap (mkPQ [0; 1; 3; 2]))) <= PTRDIFF_MAX /\
  final (size (mkPQ [0; 1; 3; 2])) = mkPQ [0; 1; 3; 2] /\
  (heap (mkPQ [0; 1; 3; 2]) <> [] ->
   value (size (mkPQ [0; 1; 3; 2]))
   = Some (Z.of_nat (length (live (mkPQ [0; 1; 3; 2]))))) /\
  (value (size (mkPQ [0; 1; 3; 2])) = Some (2 ^ 64 - 1)
   <-> heap (mkPQ [0; 1; 3; 2]) = []).
Proof.
  assert (H1 : Z.of_nat (length (heap (mkPQ [0; 1; 3; 2]))) <= PTRDIFF_MAX)
    by discriminate.
  split; [exact H1 |]. apply (size_counts_entries (mkPQ [0; 1; 3; 2]) H1).
Defined.

Lemma isHeapOrder_exact_witness :
  1 <= Z.of_nat (length (heap (mkPQ [0; 1; 3; 2]))) < 2 ^ 32 /\
  (length (heap (mkPQ [0; 1; 3; 2])) <= 4)%nat /\
  exists b : bool,
    returns (isHeapOrder stale7 4) (mkPQ [0; 1; 3; 2]) b (mkPQ [0; 1; 3; 2]) /\
    (b = true <->
     forall i : nat, (1 <= i)%nat -> strict_at (heap (mkPQ [0; 1; 3; 2])) i).
Proof.
  assert (H1 : 1 <= Z.of_nat (length (heap (mkPQ [0; 1; 3; 2]))) < 2 ^ 32)
    by (split; [discriminate | reflexivity]).
  assert (H2 : (length (heap (mkPQ [0; 1; 3; 2])) <= 4)%nat) by (cbn; lia).
  split; [exact H1 |]. split; [exact H2 |].
  apply (isHeapOrder_exact stale7 4 (mkPQ [0; 1; 3; 2]) H1 H2).
Defined.

Lemma isHeapOrder_sound_witness :
  1 <= Z.of_nat (length (heap (mkPQ [0; 1; 3; 2]))) < 2 ^ 32 /\
  (length (heap (mkPQ [0; 1; 3; 2])) <= 4)%nat /\
  value (isHeapOrder stale7 4 (mkPQ [0; 1; 3; 2])) = Some true /\
  heap_order (heap (mkPQ [0; 1; 3; 2])) /\
  forall (r : Z), heap (mkPQ [0; 1; 3; 2]) !! 1%nat = Some r ->
    forall (i : nat) (x : Z),
      (2 <= i)%nat -> heap (mkPQ [0; 1; 3; 2]) !! i = Some x -> less r x = true.
Proof.
  assert (H1 : 1 <= Z.of_nat (length (heap (mkPQ [0; 1; 3; 2]))) < 2 ^ 32)
    by (split; [discriminate | reflexivity]).
  assert (H2 : (length (heap (mkPQ [0; 1; 3; 2])) <= 4)%nat) by (cbn; lia).
  assert (H3 : value (isHeapOrder stale7 4 (mkPQ [0; 1; 3; 2])) = Some true)
    by reflexivity.
  split; [exact H1 |]. split; [exact H2 |]. split; [exact H3 |].
  apply (isHeapOrder_sound stale7 4 (mkPQ [0; 1; 3; 2]) H1 H2 H3).
Defined.

Lemma exec_conserves_entries_witness :
  (64 <= 64)%nat /\
  Z.of_nat (length [Insert 5; Insert 3; RemoveMin; Insert 8; RemoveMin])
    < PTRDIFF_MAX /\
  nonempty_removals 0 [Insert 5; Insert 3; RemoveMin; Insert 8; RemoveMin]
    = true /\
  exists (outs : list Z) (pq' : PriorityQueue),
    returns (exec stale7 64 [Insert 5; Insert 3; RemoveMin; Insert 8; RemoveMin])
      PriorityQueue_new outs pq' /\
    Permutation (inserted [Insert 5; Insert 3; RemoveMin; Insert 8; RemoveMin])
      (outs ++ live pq') /\
    length outs = removals [Insert 5; Insert 3; RemoveMin; Insert 8; RemoveMin] /\
    heap pq' !! 0%nat = Some T_init.
Proof.
  assert (H1 : (64 <= 64)%nat) by lia.
  split; [exact H1 |]. split; [reflexivity |]. split; [reflexivity |].
  apply (exec_conserves_entries stale7 64
           [Insert 5; Insert 3; RemoveMin; Insert 8; RemoveMin] H1);
    reflexivity.
Defined.

Lemma removeMin_run_sorted_witness :
  (64 <= 64)%nat /\
  well_formed (mkPQ [0; 1; 3; 2]) /\
  heap_order (heap (mkPQ [0; 1; 3; 2])) /\
  (2 <= length (live (mkPQ [0; 1; 3; 2])))%nat /\
  exists (outs : list Z) (pq' : PriorityQueue),
    returns (exec stale7 64 (repeat RemoveMin 2)) (mkPQ [0; 1; 3; 2]) outs pq' /\
    length outs = 2%nat /\
    StronglySorted leq outs /\
    Forall (fun x => Forall (leq x) (live pq')) outs /\
    Permutation (live (mkPQ [0; 1; 3; 2])) (outs ++ live pq') /\
    heap_order (heap pq').
Proof.
  assert (H1 : (64 <= 64)%nat) by lia.
  assert (H2 : well_formed (mkPQ [0; 1; 3; 2])) by (split; discriminate).
  assert (H4 : (2 <= length (live (mkPQ [0; 1; 3; 2])))%nat) by (cbn; lia).
  split; [exact H1 |]. split; [exact H2 |]. split; [exact heap_order_0132 |].
  split; [exact H4 |].
  apply (removeMin_run_sorted stale7 64 2 (mkPQ [0; 1; 3; 2])
           H1 H2 heap_order_0132 H4).
Defined.

Lemma min_after_insert_witness :
  (64 <= 64)%nat /\
  well_formed (mkPQ [0; 1; 3; 2]) /\
  Z.of_nat (length (heap (mkPQ [0; 1; 3; 2]))) < PTRDIFF_MAX /\
  heap_order (heap (mkPQ [0; 1; 3; 2])) /\
  returns (bind (insert stale7 64 0) (fun _ => min stale7)) (mkPQ [0; 1; 3; 2])
    (match heap (mkPQ [0; 1; 3; 2]) !! 1%nat with
     | Some r => if less 0 r then 0 else r
     | None => 0
     end)
    (final (insert stale7 64 0 (mkPQ [0; 1; 3; 2]))).
Proof.
  assert (H1 : (64 <= 64)%nat) by lia.
  assert (H2 : well_formed (mkPQ [0; 1; 3; 2])) by (split; discriminate).
  split; [exact H1 |]. split; [exact H2 |]. split; [reflexivity |].
  split; [exact heap_order_0132 |].
  apply (min_after_insert stale7 64 (mkPQ [0; 1; 3; 2]) 0
           H1 H2 eq_refl heap_order_0132).
Defined.

Lemma insert_removeMin_round_trip_witness :
  (64 <= 64)%nat /\
  well_formed (mkPQ [0; 1; 3; 2]) /\
  Z.of_nat (length (heap (mkPQ [0; 1; 3; 2]))) < PTRDIFF_MAX /\
  heap_order (heap (mkPQ [0; 1; 3; 2])) /\
  (forall r, heap (mkPQ [0; 1; 3; 2]) !! 1%nat = Some r -> less 0 r = true) /\
  exists pq' : PriorityQueue,
    returns (bind (insert stale7 64 0) (fun _ => removeMin stale7 64))
      (mkPQ [0; 1; 3; 2]) 0 pq' /\
    Permutation (live pq') (live (mkPQ [0; 1; 3; 2])) /\
    heap_order (heap pq') /\
    (live (mkPQ [0; 1; 3; 2]) = [] -> pq' = mkPQ [0; 1; 3; 2]).
Proof.
  assert (H1 : (64 <= 64)%nat) by lia.
  assert (H2 : well_formed (mkPQ [0; 1; 3; 2])) by (split; discriminate).
  assert (H5 : forall r, heap (mkPQ [0; 1; 3; 2]) !! 1%nat = Some r ->
                         less 0 r = true).
  { intros r Hr. cbn in Hr. injection Hr as <-. reflexivity. }
  split; [exact H1 |]. split; [exact H2 |]. split; [reflexivity |].
  split; [exact heap_order_0132 |]. split; [exact H5 |].
  apply (insert_removeMin_round_trip stale7 64 (mkPQ [0; 1; 3; 2]) 0
           H1 H2 eq_refl heap_order_0132 H5).
Defined.

Lemma loops_end_within_log_witness :
  well_formed (mkPQ [0; 1; 3; 2]) /\
  (1 <= 3)%nat /\
  (exists r, value (removeMin stale7 3 (mkPQ [0; 1; 3; 2])) = Some r) /\
  value (insert stale7 3 0 (mkPQ [0; 1; 3; 2])) = Some tt.
Proof.
  assert (H1 : well_formed (mkPQ [0; 1; 3; 2])) by (split; discriminate).
  assert (H2 : (1 <= 3)%nat) by lia.
  split; [exact H1 |]. split; [exact H2 |].
  destruct (loops_end_within_log stale7 3 (mkPQ [0; 1; 3; 2]) 0 H1 H2)
    as [Hrem Hins].
  split.
  - apply Hrem; [discriminate | cbn; discriminate].
  - apply Hins; reflexivity.
Defined.

Lemma main_passes_iff_distinct_witness :
  (257 <= 257)%nat /\
  exists b : bool,
    value (main stale7 Z.eqb 257 Z.of_nat PriorityQueue_new) = Some b /\
    (b = true <-> NoDup (map Z.of_nat (seq 0 256))).
Proof.
  assert (H1 : (257 <= 257)%nat) by lia.
  split; [exact H1 |].
  apply (main_passes_iff_distinct stale7 257 Z.of_nat H1).
Defined.
